(** * The adjoint problem of caospy: [AdjointProblem.__init__] and
    [AdjointProblem.solve] (src/caospy/_pde_problems/adjoint_problem.py).

    The finite element backend (fenics, PETSc), the form handler and the
    state problem are collaborators of the class.  They appear here twice:
    as an interface ([Backend]) of collaborators that return and change
    only what is theirs, whose calls are recorded in an event log; and as
    calls that may raise and may change any attribute of the object
    ([Effectful.Collaborators]).  The control flow of the class (caching,
    choice of strategy, the Picard loop with its tolerance tests, the order
    of the subsystem solves) is embedded as it is written, over both.
    Python floats are IEEE 754 binary64 numbers: they are the [spec_float]
    values of the standard library with precision 53 and maximal exponent
    1024; sums, quotients, square roots and comparisons are those of the
    standard, and the square [pow(x, 2)] is the one of the C library of
    the platform, which is a parameter. *)

From Stdlib Require Import ZArith List Bool Lia Strings.Ascii.
From Stdlib Require Import Floats.SpecFloat Floats.PrimFloat Floats.FloatOps.
From stdpp Require Import base option list gmap strings.

Local Open Scope Z_scope.

(* Decimal literals such as 1e-10 denote the nearest binary64 number. *)
#[local] Set Warnings "-inexact-float".

(** ** Binary64 arithmetic *)

Module F64.

Definition prec : Z := 53.
Definition emax : Z := 1024.


Definition f64 : Type := spec_float.

(** A float literal of the source, read as the nearest binary64 value. *)
Definition lit (x : PrimFloat.float) : f64 := Prim2SF x.

Definition zero : f64 := S754_zero false.
Definition one : f64 := lit 1%float.
Definition nan : f64 := S754_nan.

Definition add (x y : f64) : f64 := SFadd prec emax x y.
Definition mul (x y : f64) : f64 := SFmul prec emax x y.
Definition div (x y : f64) : f64 := SFdiv prec emax x y.
Definition sqrt (x : f64) : f64 := SFsqrt prec emax x.
Definition abs (x : f64) : f64 := SFabs x.
Definition ltb (x y : f64) : bool := SFltb x y.
Definition eqb (x y : f64) : bool := SFeqb x y.
Definition leb (x y : f64) : bool := SFleb x y.

Definition is_nan (x : f64) : bool :=
  match x with S754_nan => true | _ => false end.

Definition is_inf (x : f64) : bool :=
  match x with S754_infinity _ => true | _ => false end.



End F64.

Import F64.


(** ** Python values *)

Inductive PyExn : Type :=
| SystemExit (msg : string)
| OverflowError
| UnboundLocalError (name : string)
| IndexError
| ValueError
| InterpolationSyntaxError
| InterpolationMissingOptionError
| InterpolationDepthError
| RuntimeError (msg : string).

Inductive Res (A : Type) : Type :=
| Val (a : A)
| Exn (e : PyExn).

Arguments Val {A} a.
Arguments Exn {A} e.

(** [range(n)] for an integer [n]: empty when [n <= 0]. *)
Definition py_range (n : Z) : list Z := map Z.of_nat (seq 0 (Z.to_nat n)).

(** The position that the index [k] denotes in a list of [n] entries:
    indices below zero count from the end; [None] is an [IndexError]. *)
Definition py_index (n : nat) (k : Z) : option nat :=
  if (0 <=? k) && (k <? Z.of_nat n) then Some (Z.to_nat k)
  else if (- Z.of_nat n <=? k) && (k <? 0) then Some (Z.to_nat (k + Z.of_nat n))
  else None.

(** What the interpreter makes of [errno] after a call of the C library
    that returned [ix], where [erange] tells whether the library left the
    range error there: an infinite result counts as a range error also
    when the library reported none, and a range error with a result of
    zero (an underflow) is forgotten. *)
Definition adjust_erange (ix : f64) (erange : bool) : bool :=
  if erange then negb (eqb ix zero) else is_inf ix.

(** [pow(x, 2)] on a float.  The interpreter answers for NaN, for the
    infinities, for zero and for 1 and -1 itself; any other [x] is replaced
    by its absolute value (the exponent is even) and handed to the [pow] of
    the C library, here [libm_pow2], which gives the square and tells
    whether it left a range error in [errno]; a positive number to the
    power 2 has no other error.  A range error that remains is an
    [OverflowError].  The library rounds the square as it sees fit: its
    last bit is not that of the product [x * x] in general. *)
Definition py_pow2 (libm_pow2 : f64 -> f64 * bool) (x : f64) : Res f64 :=
  if is_nan x then Val x
  else if is_inf x then Val (abs x)
  else if eqb x zero then Val zero
  else
    let iv := abs x in
    if eqb iv one then Val one
    else
      let (ix, erange) := libm_pow2 iv in
      if adjust_erange ix erange then Exn OverflowError else Val ix.

(** ** The configuration file (Python's configparser)

    A parser holds, for each section, the raw text of its options; the
    map [sections] is what the parser looks up, with the entries of its
    defaults section already visible in every section, and every option
    holding a text.  The parser also holds its interpolation, by the
    method [before_get] that a look-up applies to the raw text of an
    entry: the class [ConfigParser] comes with [BasicInterpolation], the
    class [RawConfigParser] with none.  A typed getter called with a
    fallback returns the fallback when the section or the option is
    absent; otherwise it interpolates the raw text, which may raise, and
    converts the result, raising [ValueError] when it does not convert.
    The conversions of text to floats and integers are Python's [float]
    and [int]; they are parameters here. *)

Module Config.

Record ConfigParser : Type := {
  sections : gmap string (gmap string string);
  (** [before_get sections section option value] *)
  before_get : gmap string (gmap string string) -> string -> string -> string
               -> Res string
}.

(** The raw text of an entry: [None] when the section or the option is
    absent. *)
Definition get (cfg : ConfigParser) (sec opt : string) : option string :=
  match sections cfg !! sec with
  | Some opts => opts !! opt
  | None => None
  end.

Definition lower_ascii (c : Ascii.ascii) : Ascii.ascii :=
  let n := Ascii.nat_of_ascii c in
  if ((65 <=? n) && (n <=? 90))%nat then Ascii.ascii_of_nat (n + 32) else c.

Fixpoint lower (s : string) : string :=
  match s with
  | EmptyString => EmptyString
  | String c s' => String (lower_ascii c) (lower s')
  end.

(** The texts a parser reads as booleans, in any case. *)
Definition convert_to_boolean (raw : string) : option bool :=
  let v := lower raw in
  if bool_decide (v = "1" \/ v = "yes" \/ v = "true" \/ v = "on")%string then Some true
  else if bool_decide (v = "0" \/ v = "no" \/ v = "false" \/ v = "off")%string then Some false
  else None.

(** *** [BasicInterpolation] *)

Fixpoint has_percent (s : string) : bool :=
  match s with
  | EmptyString => false
  | String c s' => Ascii.eqb c "%"%char || has_percent s'
  end.

(** Where the scan of a text stands: in plain text, after a [%], inside
    the name of a reference [%(name)s], or after its closing bracket. *)
Inductive Scan : Type :=
| Plain
| Percent
| Name (name : string)
| Closed (name : string).

Definition prepend (s : string) (r : Res string) : Res string :=
  match r with
  | Val t => Val (s ++ t)%string
  | Exn e => Exn e
  end.

(** [_interpolate_some]: [%%] stands for a percent sign and [%(name)s]
    for the text of the option [name] of the same section, itself
    interpolated when it holds a percent sign; any other use of [%] is an
    [InterpolationSyntaxError], a reference to an absent option an
    [InterpolationMissingOptionError].  [fuel] is the number of levels of
    references left, the call at level 11 being an
    [InterpolationDepthError]. *)
Fixpoint interpolate_some (fuel : nat) (opts : gmap string string) (rest : string)
  : Res string :=
  match fuel with
  | O => Exn InterpolationDepthError
  | S fuel' =>
      (fix scan (at_ : Scan) (rest : string) {struct rest} : Res string :=
         match rest with
         | EmptyString =>
             match at_ with
             | Plain => Val EmptyString
             | _ => Exn InterpolationSyntaxError
             end
         | String c rest' =>
             match at_ with
             | Plain =>
                 if Ascii.eqb c "%"%char then scan Percent rest'
                 else prepend (String c EmptyString) (scan Plain rest')
             | Percent =>
                 if Ascii.eqb c "%"%char then prepend "%" (scan Plain rest')
                 else if Ascii.eqb c "("%char then scan (Name EmptyString) rest'
                 else Exn InterpolationSyntaxError
             | Name name =>
                 if Ascii.eqb c ")"%char
                 then match name with
                      | EmptyString => Exn InterpolationSyntaxError
                      | _ => scan (Closed name) rest'
                      end
                 else scan (Name (name ++ String c EmptyString)) rest'
             | Closed name =>
                 if Ascii.eqb c "s"%char
                 then match opts !! lower name with
                      | None => Exn InterpolationMissingOptionError
                      | Some v =>
                          match (if has_percent v
                                 then interpolate_some fuel' opts v
                                 else Val v) with
                          | Val t => prepend t (scan Plain rest')
                          | Exn e => Exn e
                          end
                      end
                 else Exn InterpolationSyntaxError
             end
         end) Plain rest
  end.

Definition MAX_INTERPOLATION_DEPTH : nat := 10.

(** [BasicInterpolation.before_get] *)
Definition basic_before_get (secs : gmap string (gmap string string))
    (sec opt value : string) : Res string :=
  match secs !! sec with
  | Some opts => interpolate_some MAX_INTERPOLATION_DEPTH opts value
  | None => interpolate_some MAX_INTERPOLATION_DEPTH ∅ value
  end.

(** [Interpolation.before_get], the one of a [RawConfigParser] *)
Definition raw_before_get (secs : gmap string (gmap string string))
    (sec opt value : string) : Res string :=
  Val value.

(** A [ConfigParser] and a [RawConfigParser] that have read the sections
    [secs]. *)
Definition config_parser (secs : gmap string (gmap string string)) : ConfigParser :=
  {| sections := secs; before_get := basic_before_get |}.

Definition raw_config_parser (secs : gmap string (gmap string string))
  : ConfigParser :=
  {| sections := secs; before_get := raw_before_get |}.

(** The text of an entry as a look-up gives it: [None] when the section
    or the option is absent, and otherwise the raw text interpolated. *)
Definition text (cfg : ConfigParser) (sec opt : string) : option (Res string) :=
  match get cfg sec opt with
  | Some raw => Some (before_get cfg (sections cfg) sec opt raw)
  | None => None
  end.

Section Getters.

Variable parse_float : string -> option f64.
Variable parse_int : string -> option Z.

Definition get_conv {A : Type} (conv : string -> option A)
    (cfg : ConfigParser) (sec opt : string) (fallback : A) : Res A :=
  match get cfg sec opt with
  | None => Val fallback
  | Some raw =>
      match before_get cfg (sections cfg) sec opt raw with
      | Exn e => Exn e
      | Val value =>
          match conv value with
          | Some v => Val v
          | None => Exn ValueError
          end
      end
  end.

Definition getfloat := get_conv parse_float.
Definition getint := get_conv parse_int.
Definition getboolean := get_conv convert_to_boolean.

End Getters.

End Config.

(** ** The collaborators of the adjoint problem

    [Fwd] is the state owned by the state problem, [Adj] the contents of
    the adjoint buffers [self.adjoints].  Every per-subsystem list of the
    form handler ([adjoints], [adjoint_eq_lhs], [adjoint_eq_rhs],
    [bcs_list_ad], [adjoint_picard_forms]) has [state_dim] entries, as
    [self.ksps] has by construction; a subsystem is named by its position
    in these lists.  These collaborators return, and a call changes the
    forward state or the buffers only; [Effectful.Collaborators] below
    drops both assumptions. *)

Class Backend (Fwd Adj : Type) : Type := {
  (** [state_problem.solve()] *)
  state_solve : Fwd -> Fwd;
  (** [assemble_system] of subsystem [k], [ident_zeros], and the solve of
      handle [k] into buffer [k] *)
  ksp_solve : nat -> Fwd -> Adj -> Adj;
  (** [assemble] of the Picard residual form [j], its boundary
      conditions applied, and its [norm('l2')] *)
  residual_norm : nat -> Fwd -> Adj -> f64;
  (** [fenics.solve] of subsystem [k] into buffer [k] *)
  fenics_solve : nat -> Fwd -> Adj -> Adj;
  (** [pow(x, 2.0)] of the C library of the platform: the value it
      returns, and whether it leaves a range error in [errno] *)
  libm_pow2 : f64 -> f64 * bool
}.


(** The calls made to the collaborators, and the lines printed. *)
Inductive Event : Type :=
| EvStateSolve
| EvAssembleSystem (k : nat)
| EvKspSolve (k : nat)
| EvAssembleResidual (j : nat)
| EvFenicsSolve (k : nat)
| EvReport (i : Z) (res rel : f64)
| EvPrintBlank.

(** What [__init__] reads from the form handler. *)
Record FormHandler : Type := {
  fh_state_dim : nat;
  fh_state_is_picard : bool;
  fh_config : Config.ConfigParser
}.

(** The attributes that [solve] only reads: those of the form handler and
    the four settings assigned in [__init__]. *)
Record AdjointProblem : Type := {
  state_dim : nat;
  state_is_picard : bool;
  rtol : f64;
  atol : f64;
  maxiter : Z;
  picard_verbose : bool
}.

(** Fallback values of lines 37-40: the literals 1e-10 and 1e-12 are read
    as the nearest binary64 numbers. *)
Definition default_rtol : f64 := lit 1e-10%float.
Definition default_atol : f64 := lit 1e-12%float.
Definition default_maxiter : Z := 50.
Definition default_verbose : bool := false.

Section Init.

Variable parse_float : string -> option f64.
Variable parse_int : string -> option Z.

(** [AdjointProblem.__init__], lines 30-40.  The solver options and the
    handles [self.ksps] (lines 42-53) carry no data that [solve] reads
    back: handle [k] is named by its index in the events. *)
Definition init (form_handler : FormHandler) : Res AdjointProblem :=
  let config := fh_config form_handler in
  match Config.getfloat parse_float config "StateEquation" "picard_rtol" default_rtol with
  | Exn e => Exn e
  | Val r =>
  match Config.getfloat parse_float config "StateEquation" "picard_atol" default_atol with
  | Exn e => Exn e
  | Val a =>
  match Config.getint parse_int config "StateEquation" "picard_iter" default_maxiter with
  | Exn e => Exn e
  | Val m =>
  match Config.getboolean config "StateEquation" "picard_verbose" default_verbose with
  | Exn e => Exn e
  | Val v =>
      Val {| state_dim := fh_state_dim form_handler;
             state_is_picard := fh_state_is_picard form_handler;
             rtol := r; atol := a; maxiter := m; picard_verbose := v |}
  end end end end.

End Init.

Section Solve.

Context {Fwd Adj : Type} `{Backend Fwd Adj}.

(** The state that [solve] changes: the forward state, the adjoint
    buffers, the two attributes of lines 55-56, and the log of events. *)
Record World : Type := mkWorld {
  forward : Fwd;
  adjoints : Adj;
  has_solution : bool;
  number_of_solves : Z;
  log : list Event
}.

(** The state that [__init__] leaves (lines 55-56). *)
Definition init_world (fwd : Fwd) (adj : Adj) : World :=
  mkWorld fwd adj false 0 [].

(** *** Computations: a state and exception monad over [World] *)

Definition M (A : Type) : Type := World -> Res A * World.

Definition ret {A : Type} (a : A) : M A := fun w => (Val a, w).

Definition raise {A : Type} (e : PyExn) : M A := fun w => (Exn e, w).

Definition bind {A B : Type} (c : M A) (k : A -> M B) : M B :=
  fun w =>
    match c w with
    | (Val a, w') => k a w'
    | (Exn e, w') => (Exn e, w')
    end.

Definition lift {A : Type} (r : Res A) : M A := fun w => (r, w).

(** The world with the events [evs] appended to its log. *)
Definition log_app (w : World) (evs : list Event) : World :=
  mkWorld (forward w) (adjoints w) (has_solution w) (number_of_solves w)
          (log w ++ evs).

(** The world with the adjoint buffers replaced by [a]. *)
Definition with_adjoints (w : World) (a : Adj) : World :=
  mkWorld (forward w) a (has_solution w) (number_of_solves w) (log w).

Definition emit (ev : Event) : M unit := fun w => (Val tt, log_app w [ev]).

Definition set_forward (f : Fwd) : M unit :=
  fun w => (Val tt,
            mkWorld f (adjoints w) (has_solution w) (number_of_solves w) (log w)).

Definition set_adjoints (a : Adj) : M unit := fun w => (Val tt, with_adjoints w a).

Definition set_has_solution (b : bool) : M unit :=
  fun w => (Val tt,
            mkWorld (forward w) (adjoints w) b (number_of_solves w) (log w)).

Definition set_number_of_solves (n : Z) : M unit :=
  fun w => (Val tt,
            mkWorld (forward w) (adjoints w) (has_solution w) n (log w)).

Definition gets {A : Type} (f : World -> A) : M A := fun w => (Val (f w), w).

Notation "'let!' x ':=' c 'in' k" := (bind c (fun x => k))
  (at level 10, x name, c at level 100, k at level 200).

(** A [for] loop without [break]. *)
Fixpoint for_each {A : Type} (xs : list A) (body : A -> M unit) : M unit :=
  match xs with
  | [] => ret tt
  | x :: xs' => let! _ := body x in for_each xs' body
  end.

(** A [for] loop that updates one local variable. *)
Fixpoint for_fold {A S : Type} (xs : list A) (body : A -> S -> M S) (s : S) : M S :=
  match xs with
  | [] => ret s
  | x :: xs' => let! s' := body x s in for_fold xs' body s'
  end.

Variable self : AdjointProblem.

(** The subsystem that the index [-1 - i] denotes. *)
Definition subsystem (i : nat) : M nat :=
  match py_index (state_dim self) (-1 - Z.of_nat i) with
  | Some k => ret k
  | None => raise IndexError
  end.

(** Line 69. *)
Definition state_problem_solve : M unit :=
  let! _ := emit EvStateSolve in
  let! fwd := gets forward in
  set_forward (state_solve fwd).

(** Lines 73-80: the direct strategy. *)
Definition direct_step (i : nat) : M unit :=
  let! k := subsystem i in
  let! _ := emit (EvAssembleSystem k) in
  let! _ := emit (EvKspSolve k) in
  let! fwd := gets forward in
  let! adj := gets adjoints in
  set_adjoints (ksp_solve k fwd adj).

Definition direct_pass : M unit :=
  for_each (seq 0 (state_dim self)) direct_step.

(** Lines 84-88: the sum of the squared residual norms. *)
Definition residual_step (j : nat) (res : f64) : M f64 :=
  let! _ := emit (EvAssembleResidual j) in
  let! fwd := gets forward in
  let! adj := gets adjoints in
  let! sq := lift (py_pow2 libm_pow2 (residual_norm j fwd adj)) in
  ret (add res sq).

Definition picard_residual : M f64 :=
  for_fold (seq 0 (state_dim self)) residual_step zero.

(** Lines 107-108: one Picard sweep. *)
Definition sweep_step (j : nat) : M unit :=
  let! k := subsystem j in
  let! _ := emit (EvFenicsSolve k) in
  let! fwd := gets forward in
  let! adj := gets adjoints in
  set_adjoints (fenics_solve k fwd adj).

Definition picard_sweep : M unit :=
  for_each (seq 0 (state_dim self)) sweep_step.

(** How an iteration of the Picard loop ends: the [break] of line 91, the
    [break] of line 102, or the end of the body. *)
Inductive Ctl : Type := BreakZero | BreakTol | Continue.

(** Lines 95-96: [res_0] after the conditional assignment; [None] is the
    unbound local. *)
Definition reference (i : Z) (res : f64) (res_0 : option f64) : option f64 :=
  if i =? 0 then Some res else res_0.

(** [res/res_0] *)
Definition ratio (res : f64) (res_0 : option f64) : M f64 :=
  match res_0 with
  | Some r0 => ret (div res r0)
  | None => raise (UnboundLocalError "res_0")
  end.

(** Line 101: the test, for the residual [res] and the reference [r0]. *)
Definition tolerance_met (res r0 : f64) : bool :=
  ltb (div res r0) (rtol self) || ltb res (atol self).

(** Lines 84-108: the body of the Picard loop at index [i], entered with
    the local [res_0]. *)
Definition picard_body (i : Z) (res_0 : option f64) : M (Ctl * option f64) :=
  let! res := picard_residual in
  if eqb res zero then ret (BreakZero, res_0)
  else
    let res := sqrt res in
    let res_0 := reference i res res_0 in
    let! _ := (if picard_verbose self
               then let! rel := ratio res res_0 in emit (EvReport i res rel)
               else ret tt) in
    let! rel := ratio res res_0 in
    if ltb rel (rtol self) || ltb res (atol self) then ret (BreakTol, res_0)
    else if i =? maxiter self
         then raise (SystemExit "Failed to solve the Picard Iteration")
         else let! _ := picard_sweep in ret (Continue, res_0).

(** How the Picard loop is left without an exception: by one of its two
    [break]s at index [i], or with its range exhausted. *)
Inductive LoopExit : Type :=
| ExitZero (i : Z)
| ExitTol (i : Z)
| Exhausted.

(** Line 83: the loop over the indices [idx]. *)
Fixpoint picard_loop (idx : list Z) (res_0 : option f64) : M LoopExit :=
  match idx with
  | [] => ret Exhausted
  | i :: idx' =>
      let! r := picard_body i res_0 in
      match r with
      | (BreakZero, _) => ret (ExitZero i)
      | (BreakTol, _) => ret (ExitTol i)
      | (Continue, res_0') => picard_loop idx' res_0'
      end
  end.

Definition picard : M LoopExit :=
  picard_loop (py_range (maxiter self + 1)) None.

(** Lines 72-114: what [solve] does when the cache is stale. *)
Definition recompute : M unit :=
  let! _ := (if negb (state_is_picard self)
             then direct_pass
             else let! _ := picard in ret tt) in
  let! _ := (if picard_verbose self then emit EvPrintBlank else ret tt) in
  let! _ := set_has_solution true in
  let! n := gets number_of_solves in
  set_number_of_solves (n + 1).

(** [AdjointProblem.solve], lines 69-116. *)
Definition solve : M Adj :=
  let! _ := state_problem_solve in
  let! fresh := gets has_solution in
  let! _ := (if negb fresh then recompute else ret tt) in
  gets adjoints.

(** *** The residual sequence of a Picard run

    The quantities below describe a run of the Picard loop by the forward
    state [fwd] and the adjoint buffers [adj] it starts from. *)

(** Subsystems in the order [N-1, ..., 0]. *)
Definition descending (n : nat) : list nat := rev (seq 0 n).

(** The buffers after a direct pass and after one Picard sweep. *)
Definition direct_adj (fwd : Fwd) (adj : Adj) : Adj :=
  fold_left (fun a k => ksp_solve k fwd a) (descending (state_dim self)) adj.

Definition sweep_adj (fwd : Fwd) (adj : Adj) : Adj :=
  fold_left (fun a k => fenics_solve k fwd a) (descending (state_dim self)) adj.

(** The buffers after [k] sweeps. *)
Definition adj_at (fwd : Fwd) (adj : Adj) (k : nat) : Adj :=
  Nat.iter k (sweep_adj fwd) adj.

(** The value of [res] at line 90 for the buffers [adj], and the
    assemblies it takes: an [OverflowError] ends both. *)
Fixpoint sum_squares_from (js : list nat) (fwd : Fwd) (adj : Adj) (res : f64)
  : Res f64 :=
  match js with
  | [] => Val res
  | j :: js' =>
      match py_pow2 libm_pow2 (residual_norm j fwd adj) with
      | Val sq => sum_squares_from js' fwd adj (add res sq)
      | Exn e => Exn e
      end
  end.

Fixpoint residual_events_from (js : list nat) (fwd : Fwd) (adj : Adj)
  : list Event :=
  match js with
  | [] => []
  | j :: js' =>
      EvAssembleResidual j ::
      match py_pow2 libm_pow2 (residual_norm j fwd adj) with
      | Val _ => residual_events_from js' fwd adj
      | Exn _ => []
      end
  end.

Definition sum_squares (fwd : Fwd) (adj : Adj) : Res f64 :=
  sum_squares_from (seq 0 (state_dim self)) fwd adj zero.

Definition residual_events (fwd : Fwd) (adj : Adj) : list Event :=
  residual_events_from (seq 0 (state_dim self)) fwd adj.

(** What sweep [k] of a run finds: an exactly zero residual, a residual
    that meets the test of line 101 against the reference of sweep 0, one
    that does not, or an exception while the residual is assembled. *)
Inductive Verdict : Type :=
| VZero
| VMet
| VUnmet
| VError (e : PyExn).

Definition verdict (fwd : Fwd) (adj : Adj) (k : nat) : Verdict :=
  match sum_squares fwd (adj_at fwd adj k), sum_squares fwd adj with
  | Val s, Val s0 =>
      if eqb s zero then VZero
      else if tolerance_met (sqrt s) (sqrt s0) then VMet else VUnmet
  | Exn e, _ => VError e
  | _, Exn e => VError e
  end.

(** The local [res_0] and the world at the top of iteration [k] of the
    Picard loop started in [w], when the iterations before [k] have all
    run to the end of the body. *)
Fixpoint picard_at (k : nat) (w : World) : option (option f64 * World) :=
  match k with
  | O => Some (None, w)
  | S k' =>
      match picard_at k' w with
      | Some (r, w') =>
          match picard_body (Z.of_nat k') r w' with
          | (Val (Continue, r'), w'') => Some (r', w'')
          | _ => None
          end
      | None => None
      end
  end.

(** The events of one iteration before its sweep: the assemblies of the
    residual, and the report when the loop is verbose. *)
Definition check_events (i : Z) (r : option f64) (w : World) : list Event :=
  residual_events (forward w) (adjoints w) ++
  match sum_squares (forward w) (adjoints w) with
  | Val s =>
      if eqb s zero then []
      else match reference i (sqrt s) r with
           | Some r0 =>
               if picard_verbose self
               then [EvReport i (sqrt s) (div (sqrt s) r0)] else []
           | None => []
           end
  | Exn _ => []
  end.

(** The exit of a loop that enters iteration [k] with [fuel] indices
    left, read off the residual sequence: the loop goes on while the
    residual is neither zero nor within tolerance, and fails when this
    happens at the index [maxiter]. *)
Fixpoint scan (fwd : Fwd) (adj : Adj) (fuel k : nat) : Res LoopExit :=
  match fuel with
  | O => Val Exhausted
  | S fuel' =>
      match verdict fwd adj k with
      | VError e => Exn e
      | VZero => Val (ExitZero (Z.of_nat k))
      | VMet => Val (ExitTol (Z.of_nat k))
      | VUnmet =>
          if Z.of_nat k =? maxiter self
          then Exn (SystemExit "Failed to solve the Picard Iteration")
          else scan fwd adj fuel' (S k)
      end
  end.

(** The world after a Picard sweep. *)
Definition sweep_world (w : World) : World :=
  with_adjoints (log_app w (map EvFenicsSolve (descending (state_dim self))))
                (sweep_adj (forward w) (adjoints w)).

(** [n] calls of [solve] in a row, and what they return. *)
Fixpoint solve_times (n : nat) : M (list Adj) :=
  match n with
  | O => ret []
  | S n' =>
      let! a := solve in
      let! rest := solve_times n' in
      ret (a :: rest)
  end.

(** The world after line 69. *)
Definition state_solved (w : World) : World :=
  mkWorld (state_solve (forward w)) (adjoints w) (has_solution w)
          (number_of_solves w) (log w ++ [EvStateSolve]).

(** The world after lines 111-114. *)
Definition finished (w : World) : World :=
  mkWorld (forward w) (adjoints w) true (number_of_solves w + 1)
          (log w ++ if picard_verbose self then [EvPrintBlank] else []).

(** The convergence test in the words of the specification: after the
    first sweep, the ratio to the reference or the residual itself is at
    most its tolerance. *)
Definition spec_tolerance_met (i : Z) (res r0 : f64) : bool :=
  (0 <? i) && (leb (div res r0) (rtol self) || leb res (atol self)).

End Solve.

(** ** The same code with collaborators that may do anything

    [Backend] describes collaborators that return and that change only
    what is theirs.  Python does not promise this: a call of the state
    problem, of the assembler or of a solver is a computation that may
    raise, and that may change any attribute of the object, the cache flag
    and the counter included.  Below, the code of [solve] is embedded once
    more over such calls; [Effectful.solve] over the calls that a
    [Backend] gives is [solve] (lemma [solve_backend_calls]). *)

Module Effectful.

Section Solve.

Context {Fwd Adj : Type}.

#[local] Abbreviation World := (@World Fwd Adj).
#[local] Abbreviation M := (@M Fwd Adj).

#[local] Notation "'let!' x ':=' c 'in' k" := (bind c (fun x => k))
  (at level 10, x name, c at level 100, k at level 200).

Record Collaborators : Type := {
  (** [self.state_problem.solve()], line 69 *)
  call_state_solve : M unit;
  (** lines 74-80 at the index [idx]: the look-ups in the lists of the
      form handler and in [self.ksps], the assembly and the solve *)
  call_direct_solve : Z -> M unit;
  (** lines 86-87 and the norm of line 88 for the residual form [j] *)
  call_residual_norm : nat -> M f64;
  (** line 108 at the index [idx] *)
  call_fenics_solve : Z -> M unit;
  (** [pow(x, 2.0)] of the C library *)
  call_libm_pow2 : f64 -> f64 * bool
}.

Variable c : Collaborators.

Variable self : AdjointProblem.

(** Lines 73-80. *)
Definition direct_pass : M unit :=
  for_each (seq 0 (state_dim self))
           (fun i => call_direct_solve c (-1 - Z.of_nat i)).

(** Lines 84-88. *)
Definition residual_step (j : nat) (res : f64) : M f64 :=
  let! norm := call_residual_norm c j in
  let! sq := lift (py_pow2 (call_libm_pow2 c) norm) in
  ret (add res sq).

Definition picard_residual : M f64 :=
  for_fold (seq 0 (state_dim self)) residual_step zero.

(** Lines 107-108. *)
Definition picard_sweep : M unit :=
  for_each (seq 0 (state_dim self))
           (fun j => call_fenics_solve c (-1 - Z.of_nat j)).

(** Lines 84-108. *)
Definition picard_body (i : Z) (res_0 : option f64) : M (Ctl * option f64) :=
  let! res := picard_residual in
  if eqb res zero then ret (BreakZero, res_0)
  else
    let res := sqrt res in
    let res_0 := reference i res res_0 in
    let! _ := (if picard_verbose self
               then let! rel := ratio res res_0 in emit (EvReport i res rel)
               else ret tt) in
    let! rel := ratio res res_0 in
    if ltb rel (rtol self) || ltb res (atol self) then ret (BreakTol, res_0)
    else if i =? maxiter self
         then raise (SystemExit "Failed to solve the Picard Iteration")
         else let! _ := picard_sweep in ret (Continue, res_0).

(** Line 83. *)
Fixpoint picard_loop (idx : list Z) (res_0 : option f64) : M LoopExit :=
  match idx with
  | [] => ret Exhausted
  | i :: idx' =>
      let! r := picard_body i res_0 in
      match r with
      | (BreakZero, _) => ret (ExitZero i)
      | (BreakTol, _) => ret (ExitTol i)
      | (Continue, res_0') => picard_loop idx' res_0'
      end
  end.

Definition picard : M LoopExit :=
  picard_loop (py_range (maxiter self + 1)) None.

(** Lines 72-114. *)
Definition recompute : M unit :=
  let! _ := (if negb (state_is_picard self)
             then direct_pass
             else let! _ := picard in ret tt) in
  let! _ := (if picard_verbose self then emit EvPrintBlank else ret tt) in
  let! _ := set_has_solution true in
  let! n := gets number_of_solves in
  set_number_of_solves (n + 1).

(** [AdjointProblem.solve], lines 69-116. *)
Definition solve : M Adj :=
  let! _ := call_state_solve c in
  let! fresh := gets has_solution in
  let! _ := (if negb fresh then recompute else ret tt) in
  gets adjoints.

End Solve.

End Effectful.

Section BackendCalls.

Context {Fwd Adj : Type} `{Backend Fwd Adj}.

Variable self : AdjointProblem.

#[local] Notation "'let!' x ':=' c 'in' k" := (bind c (fun x => k))
  (at level 10, x name, c at level 100, k at level 200).

(** The calls of collaborators that return: each is logged, and changes
    the forward state or the buffers as the [Backend] says.  The lists of
    the form handler have [state_dim] entries, as [self.ksps] has. *)
Definition backend_calls : @Effectful.Collaborators Fwd Adj := {|
  Effectful.call_state_solve := state_problem_solve;
  Effectful.call_direct_solve := fun idx =>
    match py_index (state_dim self) idx with
    | Some k =>
        let! _ := emit (EvAssembleSystem k) in
        let! _ := emit (EvKspSolve k) in
        let! fwd := gets forward in
        let! adj := gets adjoints in
        set_adjoints (ksp_solve k fwd adj)
    | None => raise IndexError
    end;
  Effectful.call_residual_norm := fun j =>
    let! _ := emit (EvAssembleResidual j) in
    let! fwd := gets forward in
    let! adj := gets adjoints in
    ret (residual_norm j fwd adj);
  Effectful.call_fenics_solve := fun idx =>
    match py_index (state_dim self) idx with
    | Some k =>
        let! _ := emit (EvFenicsSolve k) in
        let! fwd := gets forward in
        let! adj := gets adjoints in
        set_adjoints (fenics_solve k fwd adj)
    | None => raise IndexError
    end;
  Effectful.call_libm_pow2 := libm_pow2
|}.

End BackendCalls.

(** The subsystems solved, in the order of the log. *)
Definition solved (evs : list Event) : list nat :=
  flat_map (fun ev => match ev with
                      | EvKspSolve k | EvFenicsSolve k => [k]
                      | _ => []
                      end) evs.

(** ** Synthetic runs

    A backend whose buffers only count the sweeps performed: the residual
    norm of subsystem 0 after [a] sweeps is the [a]-th entry of [rs] (NaN
    past the end), the other subsystems have residual zero.  The forward
    state counts the state solves.  Its C library returns the correctly
    rounded product as the square, which is exact for the powers of two
    used below. *)

Definition synthetic (rs : list f64) : Backend nat nat := {|
  state_solve := S;
  ksp_solve := fun k _ a => (10 * a + k + 1)%nat;
  residual_norm := fun j _ a => if (j =? 0)%nat then nth a rs nan else zero;
  fenics_solve := fun k _ a => if (k =? 0)%nat then S a else a;
  libm_pow2 := fun x => (mul x x, false)
|}.

Definition problem (n : nat) (coupled : bool) (r a : f64) (m : Z) (v : bool)
  : AdjointProblem :=
  {| state_dim := n; state_is_picard := coupled;
     rtol := r; atol := a; maxiter := m; picard_verbose := v |}.

(** Residual norms 1, 1/2, 1/8. *)
Definition halving : list f64 := [lit 1%float; lit 0.5%float; lit 0.125%float].

(** A residual norm of 2^-50 at sweep 0, below the default absolute
    tolerance. *)
Definition tiny : list f64 := [lit 0x1p-50%float].

(** Two coupled subsystems with the default settings. *)
Definition coupled_default : AdjointProblem :=
  problem 2 true default_rtol default_atol default_maxiter default_verbose.

(** Two coupled subsystems, relative tolerance 1/4, absolute tolerance 1/2. *)
Definition coupled_loose : AdjointProblem :=
  problem 2 true (lit 0.25%float) (lit 0.5%float) 50 true.

(** Two coupled subsystems, relative tolerance 2^-20, absolute tolerance 1/4. *)
Definition coupled_abs : AdjointProblem :=
  problem 2 true (lit 0x1p-20%float) (lit 0.25%float) 50 false.

(** Two coupled subsystems, both tolerances 2^-20, at most one sweep. *)
Definition coupled_strict : AdjointProblem :=
  problem 2 true (lit 0x1p-20%float) (lit 0x1p-20%float) 1 false.

(** Three subsystems that are not coupled. *)
Definition uncoupled : AdjointProblem :=
  problem 3 false default_rtol default_atol default_maxiter default_verbose.

Definition fresh_start : @World nat nat := init_world 0%nat 0%nat.

Definition cached : @World nat nat := mkWorld 4%nat 7%nat true 3 [].

(** A form handler whose configuration has no section at all, and one
    whose section holds other entries. *)
Definition bare_handler : FormHandler :=
  {| fh_state_dim := 2; fh_state_is_picard := true; fh_config := Config.config_parser ∅ |}.

Definition other_entries_handler : FormHandler :=
  {| fh_state_dim := 2; fh_state_is_picard := false;
     fh_config :=
       Config.config_parser
         {[ "StateEquation" := {[ "is_linear" := "true" ]};
            "Mesh" := {[ "mesh_file" := "mesh.xdmf" ]} ]} |}.

(** ** Collaborators that do more than return *)

Section Misbehaving.

#[local] Notation "'let!' x ':=' c 'in' k" := (bind c (fun x => k))
  (at level 10, x name, c at level 100, k at level 200).

(** A state problem that finds the forward state changed and, as part of
    its solve, clears the cache flag of the adjoint problem. *)
Definition invalidating (rs : list f64) (self : AdjointProblem)
  : @Effectful.Collaborators nat nat :=
  let c := backend_calls (H := synthetic rs) self in
  {| Effectful.call_state_solve :=
       let! _ := Effectful.call_state_solve c in set_has_solution false;
     Effectful.call_direct_solve := Effectful.call_direct_solve c;
     Effectful.call_residual_norm := Effectful.call_residual_norm c;
     Effectful.call_fenics_solve := Effectful.call_fenics_solve c;
     Effectful.call_libm_pow2 := Effectful.call_libm_pow2 c |}.

(** A state problem whose solve fails. *)
Definition failing_state (rs : list f64) (self : AdjointProblem)
  : @Effectful.Collaborators nat nat :=
  let c := backend_calls (H := synthetic rs) self in
  {| Effectful.call_state_solve :=
       let! _ := emit EvStateSolve in raise (RuntimeError "state solve failed");
     Effectful.call_direct_solve := Effectful.call_direct_solve c;
     Effectful.call_residual_norm := Effectful.call_residual_norm c;
     Effectful.call_fenics_solve := Effectful.call_fenics_solve c;
     Effectful.call_libm_pow2 := Effectful.call_libm_pow2 c |}.

(** A solver whose factorisation fails at the index [bad]. *)
Definition failing_factorisation (bad : Z) (rs : list f64) (self : AdjointProblem)
  : @Effectful.Collaborators nat nat :=
  let c := backend_calls (H := synthetic rs) self in
  {| Effectful.call_state_solve := Effectful.call_state_solve c;
     Effectful.call_direct_solve := fun idx =>
       if idx =? bad then raise (RuntimeError "factorisation failed")
       else Effectful.call_direct_solve c idx;
     Effectful.call_residual_norm := Effectful.call_residual_norm c;
     Effectful.call_fenics_solve := Effectful.call_fenics_solve c;
     Effectful.call_libm_pow2 := Effectful.call_libm_pow2 c |}.

(** A world whose flag says that the buffers, on which no sweep has been
    made, are up to date. *)
Definition marked_fresh : @World nat nat := mkWorld 4%nat 0%nat true 3 [].

End Misbehaving.

(** ** More views of a run *)

(** The residual forms assembled, in the order of the log. *)
Definition assembled (evs : list Event) : list nat :=
  flat_map (fun ev => match ev with
                      | EvAssembleResidual j => [j]
                      | _ => []
                      end) evs.

(** The sweep indices reported by the verbose loop, in the order of the
    log. *)
Definition reported (evs : list Event) : list Z :=
  flat_map (fun ev => match ev with
                      | EvReport i _ _ => [i]
                      | _ => []
                      end) evs.

(** The state solves of the log. *)
Definition state_solves (evs : list Event) : list Event :=
  flat_map (fun ev => match ev with
                      | EvStateSolve => [ev]
                      | _ => []
                      end) evs.

(** What is printed (lines 99 and 112), and the log without it. *)
Definition is_print (ev : Event) : bool :=
  match ev with
  | EvReport _ _ _ | EvPrintBlank => true
  | _ => false
  end.

Definition printed (evs : list Event) : list Event :=
  flat_map (fun ev => if is_print ev then [ev] else []) evs.

Definition quiet (evs : list Event) : list Event :=
  flat_map (fun ev => if is_print ev then [] else [ev]) evs.

(** The object with its attribute [picard_verbose] set to [v]. *)
Definition with_verbose (self : AdjointProblem) (v : bool) : AdjointProblem :=
  {| state_dim := state_dim self;
     state_is_picard := state_is_picard self;
     rtol := rtol self;
     atol := atol self;
     maxiter := maxiter self;
     picard_verbose := v |}.

(** Finite and not zero. *)
Definition finite_nonzero (x : f64) : bool :=
  match x with S754_finite _ _ _ => true | _ => false end.

(** An entry of the configuration that is absent, or whose text is
    interpolated without an exception and then converts. *)
Definition converts {A : Type} (conv : string -> option A)
    (entry : option (Res string)) : Prop :=
  match entry with
  | Some (Val value) => exists v, conv value = Some v
  | Some (Exn _) => False
  | None => True
  end.

(** The value of a setting: the converted interpolated text of its entry,
    or the fallback when the entry is absent. *)
Definition configured {A : Type} (conv : string -> option A)
    (entry : option (Res string)) (fallback v : A) : Prop :=
  match entry with
  | Some (Val value) => conv value = Some v
  | Some (Exn _) => False
  | None => v = fallback
  end.

Section Traces.

Context {Fwd Adj : Type} `{Backend Fwd Adj}.

Variable self : AdjointProblem.

(** The calls of sweep [j] of a run that goes on after it: the assemblies
    of its residual, then its subsystem solves. *)
Definition sweep_trace (fwd : Fwd) (adj : Adj) (j : nat) : list Event :=
  residual_events self fwd (adj_at self fwd adj j) ++
  map EvFenicsSolve (descending (state_dim self)).

(** The calls of a run of the Picard loop that ends in iteration [k]. *)
Definition picard_trace (fwd : Fwd) (adj : Adj) (k : nat) : list Event :=
  flat_map (sweep_trace fwd adj) (seq 0 k) ++
  residual_events self fwd (adj_at self fwd adj k).

(** The outcome of a loop that stops in iteration [k], read off the
    residual of that sweep. *)
Definition outcome_at (fwd : Fwd) (adj : Adj) (k : nat) : Res LoopExit :=
  match verdict self fwd adj k with
  | VError e => Exn e
  | VZero => Val (ExitZero (Z.of_nat k))
  | VMet => Val (ExitTol (Z.of_nat k))
  | VUnmet => Exn (SystemExit "Failed to solve the Picard Iteration")
  end.

(** The world with the printed lines taken out of its log. *)
Definition hushed (w : @World Fwd Adj) : @World Fwd Adj :=
  mkWorld (forward w) (adjoints w) (has_solution w) (number_of_solves w)
          (quiet (log w)).

End Traces.

(** ** More synthetic runs *)

(** A coupled problem without subsystems, and one whose [maxiter] is
    negative. *)
Definition no_subsystems : AdjointProblem :=
  problem 0 true default_rtol default_atol default_maxiter true.

Definition negative_sweeps : AdjointProblem :=
  problem 2 true default_rtol default_atol (-1) false.

(** Readers of the few texts used below. *)
Definition demo_float (raw : string) : option f64 :=
  if decide (raw = "0.25"%string) then Some (lit 0.25%float)
  else if decide (raw = "0.5"%string) then Some (lit 0.5%float)
  else None.

Definition demo_int (raw : string) : option Z :=
  if decide (raw = "7"%string) then Some 7 else None.

Definition configured_handler : FormHandler :=
  {| fh_state_dim := 2; fh_state_is_picard := true;
     fh_config :=
       Config.config_parser
         {[ "StateEquation" :=
              {[ "picard_rtol" := "0.25"; "picard_atol" := "0.5";
                 "picard_iter" := "7"; "picard_verbose" := "Yes" ]} ]} |}.

(** A relative tolerance given by a reference to another option, and one
    with a stray percent sign. *)
Definition interpolated_handler : FormHandler :=
  {| fh_state_dim := 2; fh_state_is_picard := true;
     fh_config :=
       Config.config_parser
         {[ "StateEquation" :=
              {[ "tol" := "0.25"; "picard_rtol" := "%(tol)s" ]} ]} |}.

Definition percent_handler : FormHandler :=
  {| fh_state_dim := 2; fh_state_is_picard := true;
     fh_config :=
       Config.config_parser
         {[ "StateEquation" := {[ "picard_rtol" := "50%" ]} ]} |}.

(** The same text read by a [RawConfigParser]. *)
Definition raw_reference_handler : FormHandler :=
  {| fh_state_dim := 2; fh_state_is_picard := true;
     fh_config :=
       Config.raw_config_parser
         {[ "StateEquation" :=
              {[ "tol" := "0.25"; "picard_rtol" := "%(tol)s" ]} ]} |}.

Definition misconfigured_handler : FormHandler :=
  {| fh_state_dim := 2; fh_state_is_picard := true;
     fh_config :=
       Config.config_parser
         {[ "StateEquation" := {[ "picard_iter" := "seven" ]} ]} |}.

(** ** Runs with the squares of a given C library

    A backend whose residual norms are the entries of [norms], whatever
    the buffers, and whose C library is [pow2]. *)

Definition measured (norms : list f64) (pow2 : f64 -> f64 * bool)
  : Backend nat nat := {|
  state_solve := S;
  ksp_solve := fun k _ a => (10 * a + k + 1)%nat;
  residual_norm := fun j _ _ => nth j norms nan;
  fenics_solve := fun k _ a => if (k =? 0)%nat then S a else a;
  libm_pow2 := pow2
|}.

(** A C library whose squares are the correctly rounded products. *)
Definition rounded_product (x : f64) : f64 * bool := (mul x x, false).

(** The squares that the C library of a Linux system returns for four
    numbers; those of 96.03 and of 141.73 are not the rounded products. *)
Definition measured_pow2 (x : f64) : f64 * bool :=
  if eqb x (lit 41.69%float) then (lit 0x1.b283972474538p+10%float, false)
  else if eqb x (lit 96.03%float) then (lit 0x1.202e1652bd3c4p+13%float, false)
  else if eqb x (lit 140.14%float) then (lit 0x1.32dce0ded288cp+14%float, false)
  else if eqb x (lit 141.73%float) then (lit 0x1.39dd925460aa5p+14%float, false)
  else rounded_product x.

(** Two coupled subsystems whose loop has the iteration 0 only, with the
    absolute tolerance [a]. *)
Definition single_check (a : f64) : AdjointProblem :=
  problem 2 true default_rtol a 0 false.

(** ** The solver options and handles of [__init__] (lines 42-53)

    [fenics.PETScOptions] is the process-wide table of solver options; a
    handle that calls [setFromOptions] is configured by the table as it is
    at that moment. *)

Inductive OptionValue : Type :=
| OptText (s : string)
| OptInt (n : Z).

Definition opts_clear (opts : gmap string OptionValue) : gmap string OptionValue :=
  ∅.

Definition opts_set (name : string) (v : OptionValue)
    (opts : gmap string OptionValue) : gmap string OptionValue :=
  <[name := v]> opts.

(** Lines 43-47. *)
Definition init_options (opts : gmap string OptionValue) : gmap string OptionValue :=
  opts_set "mat_mumps_icntl_24" (OptInt 1)
    (opts_set "pc_factor_mat_solver_type" (OptText "mumps")
       (opts_set "pc_type" (OptText "lu")
          (opts_set "ksp_type" (OptText "preonly")
             (opts_clear opts)))).

(** A solver handle, with the options it was configured by. *)
Record Ksp : Type := { ksp_options : gmap string OptionValue }.

(** Lines 49-53: one handle for each index of [range(state_dim)]. *)
Definition init_ksps (form_handler : FormHandler)
    (opts : gmap string OptionValue) : list Ksp :=
  fold_left (fun ksps (_ : nat) => ksps ++ [{| ksp_options := opts |}])
            (seq 0 (fh_state_dim form_handler)) [].

(** Lines 42-53: the table after [__init__], and [self.ksps]. *)
Definition init_solvers (form_handler : FormHandler)
    (opts : gmap string OptionValue) : gmap string OptionValue * list Ksp :=
  let opts' := init_options opts in
  (opts', init_ksps form_handler opts').

(** A table of options left by earlier code. *)
Definition stale_options : gmap string OptionValue :=
  {[ "ksp_type" := OptText "gmres"; "ksp_rtol" := OptText "1e-6" ]}.

(** ** Facts about binary64 arithmetic *)

(** *** Right shifts of the rounding procedure *)









(** *** Signs of rounded results *)










(** ** Facts about the operations of [solve] *)

Lemma py_index_from_end (n i : nat) :
  (i < n)%nat -> py_index n (-1 - Z.of_nat i) = Some (n - 1 - i)%nat.
Proof.
  intros Hi. unfold py_index.
  destruct ((0 <=? -1 - Z.of_nat i) && (-1 - Z.of_nat i <? Z.of_nat n)) eqn:E1.
  - apply andb_true_iff in E1 as [E1 _]. apply Z.leb_le in E1. lia.
  - destruct ((- Z.of_nat n <=? -1 - Z.of_nat i) && (-1 - Z.of_nat i <? 0)) eqn:E2.
    + f_equal. lia.
    + apply andb_false_iff in E2 as [E2 | E2];
        [apply Z.leb_gt in E2 | apply Z.ltb_ge in E2]; lia.
Qed.

Lemma descending_from_end (n : nat) :
  map (fun i => (n - 1 - i)%nat) (seq 0 n) = descending n.
Proof.
  unfold descending. induction n as [| n IH]; [reflexivity|].
  assert (Hrev : rev (seq 0 (S n)) = n :: rev (seq 0 n))
    by (rewrite seq_S, rev_app_distr; reflexivity).
  rewrite Hrev, <- IH. cbn [seq map]. f_equal; [lia|].
  rewrite <- seq_shift, map_map. apply map_ext. intros i. lia.
Qed.

Lemma flat_map_singleton {A B : Type} (g : A -> B) (l : list A) :
  flat_map (fun x => [g x]) l = map g l.
Proof. induction l as [| x l IH]; simpl; congruence. Qed.

(** [pow(x, 2)] raises nothing but [OverflowError], and hands a NaN on. *)
Lemma py_pow2_exn (libm : f64 -> f64 * bool) (x : f64) (e : PyExn) :
  py_pow2 libm x = Exn e -> e = OverflowError.
Proof.
  unfold py_pow2.
  destruct (is_nan x); [discriminate|].
  destruct (is_inf x); [discriminate|].
  destruct (eqb x zero); [discriminate|].
  destruct (eqb (abs x) one); [discriminate|].
  destruct (libm (abs x)) as [ix erange].
  destruct (adjust_erange ix erange); now intros [= <-].
Qed.

Lemma py_pow2_nan (libm : f64 -> f64 * bool) (x : f64) :
  is_nan x = true -> py_pow2 libm x = Val x.
Proof. intros Hx. unfold py_pow2. now rewrite Hx. Qed.

Lemma py_pow2_number (libm : f64 -> f64 * bool) (x y : f64) :
  py_pow2 libm x = Val y -> is_nan y = false -> is_nan x = false.
Proof.
  intros Hy Hn. destruct (is_nan x) eqn:Hx; [| reflexivity].
  rewrite (py_pow2_nan libm x Hx) in Hy. injection Hy as <-. congruence.
Qed.


Section Facts.

Context {Fwd Adj : Type} `{Backend Fwd Adj}.

Variable self : AdjointProblem.

#[local] Abbreviation World := (@World Fwd Adj).
#[local] Abbreviation M := (@M Fwd Adj).

Lemma log_app_nil (w : World) : log_app w [] = w.
Proof. destruct w. unfold log_app. simpl. now rewrite app_nil_r. Qed.

Lemma log_app_app (w : World) (e1 e2 : list Event) :
  log_app (log_app w e1) e2 = log_app w (e1 ++ e2).
Proof. unfold log_app. simpl. now rewrite app_assoc. Qed.

Lemma with_adjoints_step (w : World) (e1 e2 : list Event) (a1 a2 : Adj) :
  with_adjoints (log_app (with_adjoints (log_app w e1) a1) e2) a2
  = with_adjoints (log_app w (e1 ++ e2)) a2.
Proof. unfold with_adjoints, log_app. simpl. now rewrite app_assoc. Qed.

Lemma with_adjoints_id (w : World) :
  with_adjoints (log_app w []) (adjoints w) = w.
Proof. rewrite log_app_nil. now destruct w. Qed.

Lemma subsystem_from_end (i : nat) (w : World) :
  (i < state_dim self)%nat ->
  subsystem self i w = (Val (state_dim self - 1 - i)%nat, w).
Proof.
  intros Hi. unfold subsystem. now rewrite py_index_from_end.
Qed.

(** A loop whose body solves the subsystem counted from the end and logs
    the events [ev] of that solve. *)
Lemma for_each_from_end (body : nat -> M unit)
    (f : nat -> Fwd -> Adj -> Adj) (ev : nat -> list Event) :
  (forall i w, (i < state_dim self)%nat ->
     body i w = (Val tt,
                 with_adjoints (log_app w (ev (state_dim self - 1 - i)%nat))
                   (f (state_dim self - 1 - i)%nat (forward w) (adjoints w)))) ->
  forall xs w, Forall (fun i => (i < state_dim self)%nat) xs ->
    for_each xs body w
    = (Val tt,
       with_adjoints
         (log_app w (flat_map ev (map (fun i => (state_dim self - 1 - i)%nat) xs)))
         (fold_left (fun a k => f k (forward w) a)
            (map (fun i => (state_dim self - 1 - i)%nat) xs) (adjoints w))).
Proof.
  intros Hbody xs. induction xs as [| x xs IH]; intros w Hxs.
  - simpl. unfold ret. now rewrite with_adjoints_id.
  - inversion Hxs as [| ? ? Hx Hxs']; subst.
    simpl. unfold bind. rewrite (Hbody x w Hx), (IH _ Hxs').
    simpl. now rewrite with_adjoints_step.
Qed.

Lemma seq_below (n : nat) : Forall (fun i => (i < n)%nat) (seq 0 n).
Proof. apply Forall_forall. intros i Hi. apply elem_of_seq in Hi. lia. Qed.

Lemma direct_pass_eq (w : World) :
  direct_pass self w
  = (Val tt,
     with_adjoints
       (log_app w (flat_map (fun k => [EvAssembleSystem k; EvKspSolve k])
                            (descending (state_dim self))))
       (direct_adj self (forward w) (adjoints w))).
Proof.
  unfold direct_pass, direct_adj.
  rewrite (for_each_from_end (direct_step self) ksp_solve
             (fun k => [EvAssembleSystem k; EvKspSolve k])).
  - now rewrite descending_from_end.
  - intros i w' Hi. unfold direct_step, bind.
    rewrite (subsystem_from_end i w' Hi). simpl.
    unfold with_adjoints, log_app. simpl. now rewrite <- app_assoc.
  - apply seq_below.
Qed.

Lemma picard_sweep_eq (w : World) :
  picard_sweep self w = (Val tt, sweep_world self w).
Proof.
  unfold picard_sweep, sweep_world, sweep_adj.
  rewrite (for_each_from_end (sweep_step self) fenics_solve
             (fun k => [EvFenicsSolve k])).
  - now rewrite descending_from_end, flat_map_singleton.
  - intros i w' Hi. unfold sweep_step, bind.
    rewrite (subsystem_from_end i w' Hi). reflexivity.
  - apply seq_below.
Qed.

Lemma for_fold_residual (js : list nat) (res : f64) (w : World) :
  for_fold js residual_step res w
  = (sum_squares_from js (forward w) (adjoints w) res,
     log_app w (residual_events_from js (forward w) (adjoints w))).
Proof.
  revert res w. induction js as [| j js IH]; intros res w.
  - simpl. unfold ret. now rewrite log_app_nil.
  - simpl. unfold bind, residual_step, bind, lift. simpl.
    destruct (py_pow2 libm_pow2 (residual_norm j (forward w) (adjoints w))) as [sq | e].
    + unfold ret. rewrite IH. simpl. now rewrite log_app_app.
    + reflexivity.
Qed.

Lemma picard_residual_eq (w : World) :
  picard_residual self w
  = (sum_squares self (forward w) (adjoints w),
     log_app w (residual_events self (forward w) (adjoints w))).
Proof. apply for_fold_residual. Qed.

(** The body of the Picard loop, case by case. *)
Lemma picard_body_eq (i : Z) (r : option f64) (w : World) :
  picard_body self i r w
  = let w1 := log_app w (residual_events self (forward w) (adjoints w)) in
    match sum_squares self (forward w) (adjoints w) with
    | Exn e => (Exn e, w1)
    | Val s =>
        if eqb s zero then (Val (BreakZero, r), w1)
        else
          match reference i (sqrt s) r with
          | None => (Exn (UnboundLocalError "res_0"), w1)
          | Some r0 =>
              let w2 := if picard_verbose self
                        then log_app w1 [EvReport i (sqrt s) (div (sqrt s) r0)]
                        else w1 in
              if tolerance_met self (sqrt s) r0 then (Val (BreakTol, Some r0), w2)
              else if i =? maxiter self
                   then (Exn (SystemExit "Failed to solve the Picard Iteration"), w2)
                   else (Val (Continue, Some r0), sweep_world self w2)
          end
    end.
Proof.
  unfold picard_body, bind. rewrite picard_residual_eq. cbv zeta.
  destruct (sum_squares self (forward w) (adjoints w)) as [s | e]; [| reflexivity].
  destruct (eqb s zero); [reflexivity|].
  destruct (reference i (sqrt s) r) as [r0 |].
  - unfold tolerance_met.
    destruct (picard_verbose self); simpl;
      destruct (ltb (div (sqrt s) r0) (rtol self) || ltb (sqrt s) (atol self));
      try reflexivity;
      destruct (i =? maxiter self); try reflexivity;
      now rewrite picard_sweep_eq.
  - destruct (picard_verbose self); reflexivity.
Qed.

Lemma solved_app (e1 e2 : list Event) : solved (e1 ++ e2) = solved e1 ++ solved e2.
Proof. unfold solved. apply flat_map_app. Qed.

Lemma solved_residual_events_from (js : list nat) (fwd : Fwd) (adj : Adj) :
  solved (residual_events_from js fwd adj) = [].
Proof.
  induction js as [| j js IH]; [reflexivity|]. simpl.
  destruct (py_pow2 libm_pow2 (residual_norm j fwd adj)); [exact IH | reflexivity].
Qed.

Lemma solved_residual_events (fwd : Fwd) (adj : Adj) :
  solved (residual_events self fwd adj) = [].
Proof. apply solved_residual_events_from. Qed.

Lemma solved_fenics (ks : list nat) : solved (map EvFenicsSolve ks) = ks.
Proof. induction ks as [| k ks IH]; simpl; congruence. Qed.

Lemma solved_direct (ks : list nat) :
  solved (flat_map (fun k => [EvAssembleSystem k; EvKspSolve k]) ks) = ks.
Proof. induction ks as [| k ks IH]; simpl; congruence. Qed.

Lemma solved_check_events (i : Z) (r : option f64) (w : World) :
  solved (check_events self i r w) = [].
Proof.
  unfold check_events. rewrite solved_app, solved_residual_events.
  destruct (sum_squares self (forward w) (adjoints w)) as [s |]; [| reflexivity].
  destruct (eqb s zero); [reflexivity|].
  destruct (reference i (sqrt s) r); [| reflexivity].
  destruct (picard_verbose self); reflexivity.
Qed.

(** An iteration that runs to the end of its body performs one sweep; any
    other leaves the buffers as they are. *)
Lemma picard_body_world (i : Z) (r : option f64) (w : World) :
  snd (picard_body self i r w)
  = match fst (picard_body self i r w) with
    | Val (Continue, _) =>
        with_adjoints
          (log_app w (check_events self i r w ++
                      map EvFenicsSolve (descending (state_dim self))))
          (sweep_adj self (forward w) (adjoints w))
    | _ => log_app w (check_events self i r w)
    end.
Proof.
  rewrite picard_body_eq. unfold check_events. cbv zeta.
  destruct (sum_squares self (forward w) (adjoints w)) as [s | e];
    [| now rewrite app_nil_r].
  destruct (eqb s zero); [now rewrite app_nil_r|].
  destruct (reference i (sqrt s) r) as [r0 |]; [| now rewrite app_nil_r].
  assert (Hw2 : (if picard_verbose self
                 then log_app (log_app w (residual_events self (forward w) (adjoints w)))
                        [EvReport i (sqrt s) (div (sqrt s) r0)]
                 else log_app w (residual_events self (forward w) (adjoints w)))
                = log_app w (residual_events self (forward w) (adjoints w) ++
                             (if picard_verbose self
                              then [EvReport i (sqrt s) (div (sqrt s) r0)] else []))).
  { destruct (picard_verbose self); [apply log_app_app | now rewrite app_nil_r]. }
  rewrite Hw2.
  destruct (tolerance_met self (sqrt s) r0); [reflexivity|].
  destruct (i =? maxiter self); [reflexivity|].
  simpl. unfold sweep_world. rewrite log_app_app. reflexivity.
Qed.

Lemma with_adjoints_same (w : World) : with_adjoints w (adjoints w) = w.
Proof. now destruct w. Qed.

Lemma concat_repeat_snoc {A : Type} (l : list A) (k : nat) :
  concat (repeat l k) ++ l = concat (repeat l (S k)).
Proof.
  induction k as [| k IH]; simpl in *.
  - now rewrite app_nil_r.
  - now rewrite <- app_assoc, IH.
Qed.

(** What an iteration that runs to the end of its body has found. *)
Lemma picard_body_continue (i : Z) (r r' : option f64) (w w' : World) :
  picard_body self i r w = (Val (Continue, r'), w') ->
  exists s r0,
    sum_squares self (forward w) (adjoints w) = Val s /\
    eqb s zero = false /\
    reference i (sqrt s) r = Some r0 /\
    r' = Some r0 /\
    tolerance_met self (sqrt s) r0 = false /\
    (i =? maxiter self) = false.
Proof.
  rewrite picard_body_eq. cbv zeta.
  destruct (sum_squares self (forward w) (adjoints w)) as [s | e]; [| discriminate].
  destruct (eqb s zero) eqn:Hz; [discriminate|].
  destruct (reference i (sqrt s) r) as [r0 |] eqn:Hr; [| discriminate].
  destruct (tolerance_met self (sqrt s) r0) eqn:Ht; [discriminate|].
  destruct (i =? maxiter self) eqn:Hi; [discriminate|].
  intros Heq. inversion Heq; subst. exists s, r0. repeat split; auto.
Qed.

(** Whatever its outcome, a run of the Picard loop performs whole sweeps
    only, and changes nothing but the buffers and the log. *)
Lemma picard_loop_world (idx : list Z) (r : option f64) (w : World) :
  exists evs a m,
    snd (picard_loop self idx r w) = with_adjoints (log_app w evs) a /\
    solved evs = concat (repeat (descending (state_dim self)) m).
Proof.
  revert r w. induction idx as [| i idx IH]; intros r w.
  - exists [], (adjoints w), O. simpl. now rewrite with_adjoints_id.
  - simpl. unfold bind.
    pose proof (picard_body_world i r w) as Hw.
    destruct (picard_body self i r w) as [[[c r'] | e] w1]; simpl in Hw.
    + destruct c.
      * exists (check_events self i r w), (adjoints w), O. simpl.
        rewrite Hw, solved_check_events. split; reflexivity.
      * exists (check_events self i r w), (adjoints w), O. simpl.
        rewrite Hw, solved_check_events. split; reflexivity.
      * destruct (IH r' w1) as (evs & a & m & Hsnd & Hsol).
        exists ((check_events self i r w ++
                 map EvFenicsSolve (descending (state_dim self))) ++ evs), a, (S m).
        rewrite Hsnd, Hw, with_adjoints_step. split; [reflexivity|].
        rewrite !solved_app, solved_check_events, solved_fenics, Hsol.
        reflexivity.
    + exists (check_events self i r w), (adjoints w), O. simpl.
      rewrite Hw, solved_check_events. split; reflexivity.
Qed.

(** The first [k] iterations, when they run to the end of the body, can
    be split off the loop. *)
Lemma picard_loop_unroll (k n : nat) (r : option f64) (w wk : World) :
  picard_at self k w = Some (r, wk) ->
  picard_loop self (map Z.of_nat (seq 0 (k + n))) None w
  = picard_loop self (map Z.of_nat (seq k n)) r wk.
Proof.
  revert n r wk. induction k as [| k IH]; intros n r wk Hat.
  - simpl in Hat. now inversion Hat.
  - simpl in Hat.
    destruct (picard_at self k w) as [[r1 w1] |] eqn:Hk; [| discriminate].
    destruct (picard_body self (Z.of_nat k) r1 w1) as [[[c r2] | e] w2] eqn:Hb;
      try discriminate.
    destruct c; try discriminate. inversion Hat; subst r2 w2.
    replace (S k + n)%nat with (k + S n)%nat by lia.
    rewrite (IH (S n) r1 w1 eq_refl). simpl. unfold bind. now rewrite Hb.
Qed.

Lemma picard_at_world (k : nat) (r : option f64) (w wk : World) :
  picard_at self k w = Some (r, wk) ->
  exists evs,
    wk = with_adjoints (log_app w evs) (adj_at self (forward w) (adjoints w) k) /\
    solved evs = concat (repeat (descending (state_dim self)) k).
Proof.
  revert r wk. induction k as [| k IH]; intros r wk Hat.
  - simpl in Hat. inversion Hat; subst. exists []. simpl.
    now rewrite with_adjoints_id.
  - simpl in Hat.
    destruct (picard_at self k w) as [[r1 w1] |] eqn:Hk; [| discriminate].
    destruct (IH r1 w1 eq_refl) as (evs & Hw1 & Hsol).
    pose proof (picard_body_world (Z.of_nat k) r1 w1) as Hw.
    destruct (picard_body self (Z.of_nat k) r1 w1) as [[[c r2] | e] w2] eqn:Hb;
      try discriminate.
    destruct c; try discriminate. inversion Hat; subst r2 w2.
    simpl in Hw. rewrite Hw.
    exists (evs ++ check_events self (Z.of_nat k) r1 w1 ++
            map EvFenicsSolve (descending (state_dim self))).
    split.
    + rewrite Hw1 at 1. rewrite with_adjoints_step. subst w1. reflexivity.
    + rewrite !solved_app, solved_check_events, solved_fenics, Hsol.
      apply concat_repeat_snoc.
Qed.

Lemma picard_at_forward (k : nat) (r : option f64) (w wk : World) :
  picard_at self k w = Some (r, wk) ->
  forward wk = forward w /\
  adjoints wk = adj_at self (forward w) (adjoints w) k /\
  has_solution wk = has_solution w /\
  number_of_solves wk = number_of_solves w.
Proof.
  intros Hat. destruct (picard_at_world k r w wk Hat) as (evs & -> & _).
  auto.
Qed.

(** After sweep 0 the local [res_0] holds the residual of sweep 0, which
    was not zero. *)
Lemma picard_at_reference (k : nat) (r : option f64) (w wk : World) :
  picard_at self (S k) w = Some (r, wk) ->
  exists s0,
    sum_squares self (forward w) (adjoints w) = Val s0 /\
    eqb s0 zero = false /\
    r = Some (sqrt s0).
Proof.
  revert r wk. induction k as [| k IH]; intros r wk Hat.
  - simpl in Hat. change (Z.of_nat 0) with 0 in Hat.
    destruct (picard_body self 0 None w) as [[[c r2] | e] w2] eqn:Hb;
      try discriminate.
    destruct c; try discriminate. injection Hat as -> ->.
    apply picard_body_continue in Hb as (s & r0 & Hs & Hz & Hr & -> & _).
    exists s. unfold reference in Hr. simpl in Hr. inversion Hr. auto.
  - remember (S k) as k1 eqn:Hk1. simpl in Hat.
    destruct (picard_at self k1 w) as [[r1 w1] |] eqn:Hk; [| discriminate].
    destruct (picard_body self (Z.of_nat k1) r1 w1) as [[[c r2] | e] w2] eqn:Hb;
      try discriminate.
    destruct c; try discriminate. injection Hat as -> ->.
    subst k1. destruct (IH r1 w1 eq_refl) as (s0 & Hs0 & Hz0 & ->).
    apply picard_body_continue in Hb as (s & r0 & Hs & Hz & Hr & -> & _).
    exists s0. unfold reference in Hr.
    replace (Z.of_nat (S k) =? 0) with false in Hr by (symmetry; apply Z.eqb_neq; lia).
    rewrite <- Hr. auto.
Qed.

(** *** The loop and the residual sequence *)

(** What the body does at a reachable iteration is what the verdict on the
    residual of that sweep says. *)
Lemma picard_body_verdict (k : nat) (r : option f64) (w wk : World) :
  picard_at self k w = Some (r, wk) ->
  match verdict self (forward w) (adjoints w) k with
  | VError e => fst (picard_body self (Z.of_nat k) r wk) = Exn e
  | VZero => exists r', fst (picard_body self (Z.of_nat k) r wk) = Val (BreakZero, r')
  | VMet => exists r', fst (picard_body self (Z.of_nat k) r wk) = Val (BreakTol, r')
  | VUnmet =>
      if Z.of_nat k =? maxiter self
      then fst (picard_body self (Z.of_nat k) r wk)
           = Exn (SystemExit "Failed to solve the Picard Iteration")
      else exists r', fst (picard_body self (Z.of_nat k) r wk) = Val (Continue, r')
  end.
Proof.
  intros Hat.
  destruct (picard_at_forward k r w wk Hat) as (Hf & Ha & _ & _).
  rewrite picard_body_eq, Hf, Ha. cbv zeta. unfold verdict.
  destruct k as [| k].
  - simpl in Hat. injection Hat as <- <-.
    change (adj_at self (forward w) (adjoints w) 0) with (adjoints w).
    change (Z.of_nat 0) with 0.
    destruct (sum_squares self (forward w) (adjoints w)) as [s | e]; [| reflexivity].
    destruct (eqb s zero); [eexists; reflexivity|].
    unfold reference. change (0 =? 0) with true. cbv iota.
    destruct (tolerance_met self (sqrt s) (sqrt s)); [eexists; reflexivity|].
    destruct (0 =? maxiter self); [reflexivity | eexists; reflexivity].
  - destruct (picard_at_reference k r w wk Hat) as (s0 & Hs0 & _ & ->).
    rewrite Hs0.
    destruct (sum_squares self (forward w) (adj_at self (forward w) (adjoints w) (S k)))
      as [s | e]; [| reflexivity].
    destruct (eqb s zero); [eexists; reflexivity|].
    unfold reference.
    replace (Z.of_nat (S k) =? 0) with false by (symmetry; apply Z.eqb_neq; lia).
    destruct (tolerance_met self (sqrt s) (sqrt s0)); [eexists; reflexivity|].
    destruct (Z.of_nat (S k) =? maxiter self); [reflexivity | eexists; reflexivity].
Qed.

(** The loop refines [scan]. *)
Lemma picard_loop_scan (fuel k : nat) (r : option f64) (w wk : World) :
  picard_at self k w = Some (r, wk) ->
  fst (picard_loop self (map Z.of_nat (seq k fuel)) r wk)
  = scan self (forward w) (adjoints w) fuel k.
Proof.
  revert k r wk. induction fuel as [| fuel IH]; intros k r wk Hat; [reflexivity|].
  pose proof (picard_body_verdict k r w wk Hat) as Hv.
  cbn [seq map picard_loop scan]. unfold bind.
  destruct (picard_body self (Z.of_nat k) r wk) as [res w1] eqn:Hb.
  simpl in Hv.
  destruct (verdict self (forward w) (adjoints w) k) as [| | | e].
  - destruct Hv as [r' ->]. reflexivity.
  - destruct Hv as [r' ->]. reflexivity.
  - destruct (Z.of_nat k =? maxiter self).
    + subst res. reflexivity.
    + destruct Hv as [r' ->]. apply IH. simpl. now rewrite Hat, Hb.
  - subst res. reflexivity.
Qed.

Lemma picard_scan (w : World) :
  fst (picard self w)
  = scan self (forward w) (adjoints w) (Z.to_nat (maxiter self + 1)) 0.
Proof. unfold picard, py_range. now apply picard_loop_scan. Qed.

(** While the residual is neither zero nor within tolerance, and the last
    index is not reached, the loop goes on. *)
Lemma picard_at_unmet (k : nat) (w : World) :
  (forall j, (j < k)%nat ->
     verdict self (forward w) (adjoints w) j = VUnmet /\ Z.of_nat j <> maxiter self) ->
  exists r wk, picard_at self k w = Some (r, wk).
Proof.
  induction k as [| k IH]; intros Hun.
  - exists None, w. reflexivity.
  - destruct IH as (r & wk & Hat); [intros j Hj; apply Hun; lia|].
    pose proof (picard_body_verdict k r w wk Hat) as Hv.
    destruct (Hun k ltac:(lia)) as [Hk Hm]. rewrite Hk in Hv.
    apply Z.eqb_neq in Hm. rewrite Hm in Hv. destruct Hv as [r' Hv].
    destruct (picard_body self (Z.of_nat k) r wk) as [res w1] eqn:Hb.
    simpl in Hv. subst res.
    exists r', w1. simpl. now rewrite Hat, Hb.
Qed.

Lemma scan_tol_iff (fwd : Fwd) (adj : Adj) (fuel k k' : nat) :
  scan self fwd adj fuel k = Val (ExitTol (Z.of_nat k')) <->
  (k <= k' < k + fuel)%nat /\
  (forall j, (k <= j < k')%nat ->
     verdict self fwd adj j = VUnmet /\ Z.of_nat j <> maxiter self) /\
  verdict self fwd adj k' = VMet.
Proof.
  revert k. induction fuel as [| fuel IH]; intros k.
  - simpl. split; [discriminate | lia].
  - simpl. destruct (verdict self fwd adj k) as [| | | e] eqn:Hk.
    + split; [discriminate|]. intros (Hr & Hun & Hm).
      destruct (Nat.eq_dec k k') as [-> | Hne]; [congruence|].
      destruct (Hun k ltac:(lia)) as [Hk' _]. congruence.
    + split.
      * intros Heq. injection Heq as Heq. apply Nat2Z.inj in Heq. subst k'.
        repeat split; [lia | lia | lia | lia | assumption].
      * intros (Hr & Hun & Hm).
        destruct (Nat.eq_dec k k') as [-> | Hne]; [reflexivity|].
        destruct (Hun k ltac:(lia)) as [Hk' _]. congruence.
    + destruct (Z.of_nat k =? maxiter self) eqn:Hmax.
      * split; [discriminate|]. intros (Hr & Hun & Hm).
        destruct (Nat.eq_dec k k') as [-> | Hne]; [congruence|].
        destruct (Hun k ltac:(lia)) as [_ Hk']. apply Z.eqb_eq in Hmax. contradiction.
      * rewrite IH. apply Z.eqb_neq in Hmax. split.
        -- intros (Hr & Hun & Hm). repeat split; try lia; try assumption.
           ++ destruct (Nat.eq_dec j k) as [-> | Hne]; [assumption|].
              apply Hun. lia.
           ++ destruct (Nat.eq_dec j k) as [-> | Hne]; [assumption|].
              apply Hun. lia.
        -- intros (Hr & Hun & Hm).
           assert (k <> k') by congruence.
           repeat split; try lia; try assumption; apply Hun; lia.
    + split; [discriminate|]. intros (Hr & Hun & Hm).
      destruct (Nat.eq_dec k k') as [-> | Hne]; [congruence|].
      destruct (Hun k ltac:(lia)) as [Hk' _]. congruence.
Qed.

(** A residual sequence that is neither zero nor within tolerance up to
    the index [maxiter] makes the loop fail. *)
Lemma scan_unmet (fwd : Fwd) (adj : Adj) (fuel k : nat) :
  (Z.of_nat k <= maxiter self < Z.of_nat (k + fuel)) ->
  (forall j, (k <= j)%nat -> Z.of_nat j <= maxiter self ->
     verdict self fwd adj j = VUnmet) ->
  scan self fwd adj fuel k = Exn (SystemExit "Failed to solve the Picard Iteration").
Proof.
  revert k. induction fuel as [| fuel IH]; intros k Hk Hun; [lia|].
  simpl. rewrite (Hun k) by lia.
  destruct (Z.of_nat k =? maxiter self) eqn:Hmax; [reflexivity|].
  apply Z.eqb_neq in Hmax. apply IH; [lia|].
  intros j Hj Hjm. apply Hun; lia.
Qed.

(** *** The whole of [solve] *)

Lemma state_problem_solve_eq (w : World) :
  state_problem_solve w = (Val tt, state_solved w).
Proof. reflexivity. Qed.

(** The strategy that [recompute] runs, without what follows it. *)
Lemma recompute_eq (w : World) :
  recompute self w
  = match (if negb (state_is_picard self)
           then direct_pass self w
           else match picard self w with
                | (Val _, w') => (Val tt, w')
                | (Exn e, w') => (Exn e, w')
                end) with
    | (Val _, w1) => (Val tt, finished self w1)
    | (Exn e, w1) => (Exn e, w1)
    end.
Proof.
  unfold recompute, bind.
  destruct (negb (state_is_picard self)).
  - rewrite direct_pass_eq. unfold finished.
    destruct (picard_verbose self); simpl; [reflexivity|].
    unfold ret, set_has_solution, gets, set_number_of_solves. simpl.
    now rewrite app_nil_r.
  - destruct (picard self w) as [[x | e] w1]; [| reflexivity]. unfold finished.
    destruct (picard_verbose self); simpl; [reflexivity|].
    unfold ret, set_has_solution, gets, set_number_of_solves. simpl.
    now rewrite app_nil_r.
Qed.

Lemma solve_eq (w : World) :
  solve self w
  = if has_solution w then (Val (adjoints w), state_solved w)
    else match recompute self (state_solved w) with
         | (Val _, w1) => (Val (adjoints w1), w1)
         | (Exn e, w1) => (Exn e, w1)
         end.
Proof.
  unfold solve, bind. rewrite state_problem_solve_eq. simpl.
  destruct (has_solution w); simpl; [reflexivity|].
  destruct (recompute self (state_solved w)) as [[x | e] w1]; reflexivity.
Qed.

(** Whatever its outcome, the strategy performs whole passes over the
    subsystems only, and changes nothing but the buffers and the log. *)
Lemma strategy_world (w : World) :
  exists evs a m,
    snd (if negb (state_is_picard self)
         then direct_pass self w
         else match picard self w with
              | (Val _, w') => (Val tt, w')
              | (Exn e, w') => (Exn e, w')
              end)
    = with_adjoints (log_app w evs) a /\
    solved evs = concat (repeat (descending (state_dim self)) m) /\
    (state_is_picard self = false -> m = 1%nat).
Proof.
  destruct (state_is_picard self); simpl.
  - destruct (picard_loop_world (py_range (maxiter self + 1)) None w)
      as (evs & a & m & Hw & Hs).
    exists evs, a, m. split; [| split; [exact Hs | discriminate]].
    unfold picard. destruct (picard_loop self _ None w) as [[x | e] w1]; exact Hw.
  - rewrite direct_pass_eq. eexists _, _, 1%nat. split; [reflexivity|].
    split; [| reflexivity]. rewrite solved_direct. simpl. now rewrite app_nil_r.
Qed.

(** *** Signs of the sum of squares *)





Lemma sum_squares_from_exn (js : list nat) (fwd : Fwd) (adj : Adj)
    (res : f64) (e : PyExn) :
  sum_squares_from js fwd adj res = Exn e -> e = OverflowError.
Proof.
  revert res. induction js as [| j js IH]; intros res; simpl; [discriminate|].
  destruct (py_pow2 libm_pow2 (residual_norm j fwd adj)) as [sq |] eqn:Hsq.
  - apply IH.
  - intros [= <-]. now apply py_pow2_exn in Hsq.
Qed.

Lemma verdict_error (fwd : Fwd) (adj : Adj) (k : nat) (e : PyExn) :
  verdict self fwd adj k = VError e -> e = OverflowError.
Proof.
  unfold verdict, sum_squares.
  destruct (sum_squares_from _ fwd (adj_at self fwd adj k) zero) as [s | e1] eqn:H1.
  - destruct (sum_squares_from _ fwd adj zero) as [s0 | e0] eqn:H0.
    + destruct (eqb s zero); [discriminate|].
      destruct (tolerance_met self (sqrt s) (sqrt s0)); discriminate.
    + intros [= <-]. now apply sum_squares_from_exn in H0.
  - intros [= <-]. now apply sum_squares_from_exn in H1.
Qed.


Lemma verdict_met_iff (fwd : Fwd) (adj : Adj) (k : nat) :
  verdict self fwd adj k = VMet <->
  exists s s0,
    sum_squares self fwd (adj_at self fwd adj k) = Val s /\
    sum_squares self fwd adj = Val s0 /\
    eqb s zero = false /\
    ltb (div (sqrt s) (sqrt s0)) (rtol self) || ltb (sqrt s) (atol self) = true.
Proof.
  unfold verdict, tolerance_met. split.
  - destruct (sum_squares self fwd (adj_at self fwd adj k)) as [s | e]; [| discriminate].
    destruct (sum_squares self fwd adj) as [s0 | e0]; [| discriminate].
    destruct (eqb s zero) eqn:Hz; [discriminate|].
    destruct (ltb (div (sqrt s) (sqrt s0)) (rtol self) || ltb (sqrt s) (atol self)) eqn:Ht;
      [| discriminate].
    intros _. exists s, s0. auto.
  - intros (s & s0 & -> & -> & -> & ->). reflexivity.
Qed.

(** ** The claims about the Picard strategy *)

(** C1 (as the code has it): the Picard loop leaves by the tolerance test
    at sweep [k], sweep 0 included, exactly when [k] is at most [maxiter],
    every sweep before [k] found a residual that was neither zero nor
    within tolerance, and sweep [k] finds a residual that is not zero with
    residual / reference < rtol or residual < atol, both strict, the
    reference being the residual of sweep 0. *)
Theorem C1_tolerance_exit (w : World) (k : nat) :
  fst (picard self w) = Val (ExitTol (Z.of_nat k)) <->
  Z.of_nat k <= maxiter self /\
  (forall j, (j < k)%nat -> verdict self (forward w) (adjoints w) j = VUnmet) /\
  exists s s0,
    sum_squares self (forward w) (adj_at self (forward w) (adjoints w) k) = Val s /\
    sum_squares self (forward w) (adjoints w) = Val s0 /\
    eqb s zero = false /\
    ltb (div (sqrt s) (sqrt s0)) (rtol self) || ltb (sqrt s) (atol self) = true.
Proof.
  rewrite picard_scan, scan_tol_iff, verdict_met_iff. split.
  - intros (Hr & Hun & Hm). split; [lia|]. split; [| exact Hm].
    intros j Hj. apply Hun. lia.
  - intros (Hr & Hun & Hm). split; [lia|]. split; [| exact Hm].
    intros j Hj. split; [apply Hun; lia | lia].
Qed.

(** C2: when no residual up to sweep [maxiter] is zero or within
    tolerance, the sweeps before [maxiter] all run to the end of the body,
    the body at index [maxiter] raises [SystemExit], this is the outcome
    of the loop, and exactly [maxiter] sweeps have been performed. *)
Theorem C2_max_sweep_exhaustion (w : World) :
  0 <= maxiter self ->
  (forall j, Z.of_nat j <= maxiter self ->
     verdict self (forward w) (adjoints w) j = VUnmet) ->
  exists r wm evs,
    picard_at self (Z.to_nat (maxiter self)) w = Some (r, wm) /\
    picard_body self (maxiter self) r wm
    = (Exn (SystemExit "Failed to solve the Picard Iteration"),
       log_app wm (check_events self (maxiter self) r wm)) /\
    picard self w
    = (Exn (SystemExit "Failed to solve the Picard Iteration"),
       log_app wm (check_events self (maxiter self) r wm)) /\
    adjoints wm
    = adj_at self (forward w) (adjoints w) (Z.to_nat (maxiter self)) /\
    log (log_app wm (check_events self (maxiter self) r wm)) = log w ++ evs /\
    solved evs
    = concat (repeat (descending (state_dim self)) (Z.to_nat (maxiter self))).
Proof.
  intros Hmax Hun.
  set (m := Z.to_nat (maxiter self)).
  assert (Hm : Z.of_nat m = maxiter self) by (subst m; lia).
  destruct (picard_at_unmet m w) as (r & wm & Hat).
  { intros j Hj. split; [apply Hun |]; lia. }
  pose proof (picard_body_verdict m r w wm Hat) as Hv.
  rewrite (Hun m) in Hv by lia. rewrite Hm, Z.eqb_refl in Hv.
  pose proof (picard_body_world (maxiter self) r wm) as Hw.
  rewrite Hv in Hw.
  assert (Hb : picard_body self (maxiter self) r wm
               = (Exn (SystemExit "Failed to solve the Picard Iteration"),
                  log_app wm (check_events self (maxiter self) r wm))).
  { destruct (picard_body self (maxiter self) r wm) as [res w1].
    simpl in Hv, Hw. now subst. }
  destruct (picard_at_world m r w wm Hat) as (evs & Hwm & Hsol).
  exists r, wm, (evs ++ check_events self (maxiter self) r wm).
  split; [exact Hat|]. split; [exact Hb|]. split; [| split; [| split]].
  - unfold picard, py_range.
    replace (Z.to_nat (maxiter self + 1)) with (m + 1)%nat by lia.
    rewrite (picard_loop_unroll m 1 r w wm Hat). simpl. unfold bind.
    now rewrite Hm, Hb.
  - now rewrite Hwm at 1.
  - rewrite Hwm at 1. simpl. now rewrite app_assoc.
  - now rewrite solved_app, solved_check_events, app_nil_r.
Qed.

(** C5: when the sum of squares of sweep 0 is exactly zero, the loop ends
    by the first [break] at index 0; the world changes by the assemblies
    of the residual only, none of which is a subsystem solve. *)
Theorem C5_zero_fast_path (w : World) (s : f64) :
  0 <= maxiter self ->
  sum_squares self (forward w) (adjoints w) = Val s ->
  eqb s zero = true ->
  picard self w
  = (Val (ExitZero 0),
     log_app w (residual_events self (forward w) (adjoints w))) /\
  solved (residual_events self (forward w) (adjoints w)) = [].
Proof.
  intros Hmax Hs Hz. split; [| apply solved_residual_events].
  unfold picard, py_range.
  replace (Z.to_nat (maxiter self + 1)) with (S (Z.to_nat (maxiter self))) by lia.
  cbn [seq map picard_loop]. unfold bind.
  change (Z.of_nat 0) with 0. rewrite picard_body_eq. cbv zeta.
  now rewrite Hs, Hz.
Qed.


(** ** The claims about [solve] *)

(** Case analysis on the outcome of the strategy that [recompute] runs in
    the world after the state solve of [w]. *)
Ltac strategy_outcome w evs m Hs Hm :=
  let b := fresh "b" in
  let Hw := fresh "Hw" in
  let w1 := fresh "w1" in
  rewrite recompute_eq;
  destruct (strategy_world (state_solved w)) as (evs & b & m & Hw & Hs & Hm);
  destruct (if negb (state_is_picard _) then _ else _) as [[? | ?] w1];
  simpl in Hw; subst w1.

(** A call on a stale cache that returns: the strategy has run, and lines
    111-114 after it. *)
Lemma solve_stale_success (w w' : World) (a : Adj) :
  has_solution w = false ->
  solve self w = (Val a, w') ->
  a = adjoints w' /\
  has_solution w' = true /\
  number_of_solves w' = number_of_solves w + 1 /\
  forward w' = state_solve (forward w).
Proof.
  intros Hstale. rewrite solve_eq, Hstale.
  strategy_outcome w evs m Hs Hm; [| discriminate].
  intros [= <- <-]. simpl. auto.
Qed.

(** A call on a stale cache that raises: lines 111-114 have not run. *)
Lemma solve_stale_failure (w w' : World) (e : PyExn) :
  has_solution w = false ->
  solve self w = (Exn e, w') ->
  has_solution w' = false /\
  number_of_solves w' = number_of_solves w.
Proof.
  intros Hstale. rewrite solve_eq, Hstale.
  strategy_outcome w evs m Hs Hm; [discriminate|].
  intros [= <- <-]. simpl. auto.
Qed.

(** A call on a fresh cache. *)
Lemma solve_fresh (w : World) :
  has_solution w = true ->
  solve self w = (Val (adjoints w), state_solved w).
Proof. intros Hfresh. now rewrite solve_eq, Hfresh. Qed.

Lemma solve_times_fresh (n : nat) (w : World) :
  has_solution w = true ->
  solve_times self n w
  = (Val (repeat (adjoints w) n),
     mkWorld (Nat.iter n state_solve (forward w)) (adjoints w) true
             (number_of_solves w) (log w ++ repeat EvStateSolve n)).
Proof.
  revert w. induction n as [| n IH]; intros w Hfresh.
  - simpl. unfold ret. rewrite app_nil_r. destruct w. simpl in *. now subst.
  - cbn [solve_times]. unfold bind. rewrite (solve_fresh w Hfresh).
    rewrite (IH (state_solved w) Hfresh). unfold ret. simpl.
    change (state_solve (Nat.iter n state_solve (forward w)))
      with (Nat.iter (S n) state_solve (forward w)).
    rewrite <- app_assoc, Nat.iter_succ_r. reflexivity.
Qed.

(** C3: on a fresh cache, [n] calls in a row return the present buffers
    each time, solve no subsystem (the log grows by the state solves
    only), and leave the counter as it is; on a stale cache on which the
    first call returns, [S n] calls return the buffers of the first call
    each time, and the counter has grown by one. *)
Theorem C3_idempotence (w : World) (n : nat) :
  (has_solution w = true ->
   solve_times self n w
   = (Val (repeat (adjoints w) n),
      mkWorld (Nat.iter n state_solve (forward w)) (adjoints w) true
              (number_of_solves w) (log w ++ repeat EvStateSolve n))) /\
  (forall a w1,
     has_solution w = false ->
     solve self w = (Val a, w1) ->
     solve_times self (S n) w
     = (Val (repeat a (S n)),
        mkWorld (Nat.iter n state_solve (forward w1)) a true
                (number_of_solves w + 1) (log w1 ++ repeat EvStateSolve n))).
Proof.
  split; [apply solve_times_fresh|].
  intros a w1 Hstale Hsolve.
  destruct (solve_stale_success w w1 a Hstale Hsolve) as (Ha & Hf & Hn & _).
  cbn [solve_times]. unfold bind. rewrite Hsolve.
  rewrite (solve_times_fresh n w1 Hf). unfold ret. simpl.
  now rewrite Hn, <- Ha.
Qed.

Lemma descending_lookup (n i : nat) :
  (i < n)%nat -> descending n !! i = Some (n - 1 - i)%nat.
Proof.
  intros Hi. rewrite <- descending_from_end, list_lookup_fmap.
  rewrite lookup_seq_lt by exact Hi. reflexivity.
Qed.

(** C6: a call on a stale cache that returns has set the cache flag and
    has added one to the counter, whichever strategy ran. *)
Theorem C6_success_sets_flag_and_counter (w w' : World) (a : Adj) :
  has_solution w = false ->
  solve self w = (Val a, w') ->
  has_solution w' = true /\
  number_of_solves w' = number_of_solves w + 1.
Proof.
  intros Hstale Hsolve.
  destruct (solve_stale_success w w' a Hstale Hsolve) as (_ & Hf & Hn & _).
  auto.
Qed.

(** C10: a call that ends in the [SystemExit] of the Picard loop started
    on a stale cache, with the Picard strategy, and leaves the cache flag
    false and the counter as it was; the next call runs the strategy
    again. *)
Theorem C10_failure_leaves_cache_stale (w w' : World) (msg : string) :
  solve self w = (Exn (SystemExit msg), w') ->
  has_solution w = false /\
  state_is_picard self = true /\
  has_solution w' = false /\
  number_of_solves w' = number_of_solves w /\
  solve self w'
  = match recompute self (state_solved w') with
    | (Val _, w1) => (Val (adjoints w1), w1)
    | (Exn e, w1) => (Exn e, w1)
    end.
Proof.
  intros Hsolve.
  assert (Hstale : has_solution w = false).
  { destruct (has_solution w) eqn:Hc; [| reflexivity].
    rewrite (solve_fresh w Hc) in Hsolve. discriminate. }
  assert (Hpicard : state_is_picard self = true).
  { destruct (state_is_picard self) eqn:Hp; [reflexivity|].
    rewrite solve_eq, Hstale, recompute_eq, Hp in Hsolve. simpl in Hsolve.
    rewrite direct_pass_eq in Hsolve. discriminate. }
  destruct (solve_stale_failure w w' _ Hstale Hsolve) as (Hf & Hn).
  repeat split; auto. now rewrite solve_eq, Hf.
Qed.

End Facts.

(** ** The claim about [__init__] *)

(** A typed getter, by the text that the look-up gives. *)
Lemma get_conv_text {A : Type} (conv : string -> option A)
    (cfg : Config.ConfigParser) (sec opt : string) (fallback : A) :
  Config.get_conv conv cfg sec opt fallback
  = match Config.text cfg sec opt with
    | None => Val fallback
    | Some (Exn e) => Exn e
    | Some (Val value) =>
        match conv value with
        | Some v => Val v
        | None => Exn ValueError
        end
    end.
Proof.
  unfold Config.get_conv, Config.text.
  destruct (Config.get cfg sec opt); reflexivity.
Qed.

Lemma get_conv_absent {A : Type} (conv : string -> option A)
    (cfg : Config.ConfigParser) (sec opt : string) (fallback v : A) :
  Config.get_conv conv cfg sec opt fallback = Val v ->
  Config.get cfg sec opt = None ->
  v = fallback.
Proof. unfold Config.get_conv. intros Hv Hn. rewrite Hn in Hv. congruence. Qed.

(** [__init__] returns when its four getters return, and raises what the
    first of them to raise raises. *)
Lemma init_getters (parse_float : string -> option f64)
    (parse_int : string -> option Z) (form_handler : FormHandler) :
  init parse_float parse_int form_handler
  = match Config.getfloat parse_float (fh_config form_handler)
            "StateEquation" "picard_rtol" default_rtol,
          Config.getfloat parse_float (fh_config form_handler)
            "StateEquation" "picard_atol" default_atol,
          Config.getint parse_int (fh_config form_handler)
            "StateEquation" "picard_iter" default_maxiter,
          Config.getboolean (fh_config form_handler)
            "StateEquation" "picard_verbose" default_verbose with
    | Val r, Val a, Val m, Val v =>
        Val {| state_dim := fh_state_dim form_handler;
               state_is_picard := fh_state_is_picard form_handler;
               rtol := r; atol := a; maxiter := m; picard_verbose := v |}
    | Exn e, _, _, _ => Exn e
    | Val _, Exn e, _, _ => Exn e
    | Val _, Val _, Exn e, _ => Exn e
    | Val _, Val _, Val _, Exn e => Exn e
    end.
Proof.
  unfold init.
  destruct (Config.getfloat _ _ _ "picard_rtol" _); [| reflexivity].
  destruct (Config.getfloat _ _ _ "picard_atol" _); [| reflexivity].
  destruct (Config.getint _ _ _ _ _); [| reflexivity].
  destruct (Config.getboolean _ _ _ _); reflexivity.
Qed.

(** C8: a configuration without the four entries gives the settings their
    fallback values 1e-10, 1e-12, 50 and [False]; and whenever [__init__]
    returns, each setting whose entry is absent has its fallback value. *)
Theorem C8_defaults (parse_float : string -> option f64)
    (parse_int : string -> option Z) (form_handler : FormHandler) :
  (Config.get (fh_config form_handler) "StateEquation" "picard_rtol" = None ->
   Config.get (fh_config form_handler) "StateEquation" "picard_atol" = None ->
   Config.get (fh_config form_handler) "StateEquation" "picard_iter" = None ->
   Config.get (fh_config form_handler) "StateEquation" "picard_verbose" = None ->
   init parse_float parse_int form_handler
   = Val {| state_dim := fh_state_dim form_handler;
            state_is_picard := fh_state_is_picard form_handler;
            rtol := lit 1e-10%float;
            atol := lit 1e-12%float;
            maxiter := 50;
            picard_verbose := false |}) /\
  (forall ap,
     init parse_float parse_int form_handler = Val ap ->
     (Config.get (fh_config form_handler) "StateEquation" "picard_rtol" = None ->
      rtol ap = lit 1e-10%float) /\
     (Config.get (fh_config form_handler) "StateEquation" "picard_atol" = None ->
      atol ap = lit 1e-12%float) /\
     (Config.get (fh_config form_handler) "StateEquation" "picard_iter" = None ->
      maxiter ap = 50) /\
     (Config.get (fh_config form_handler) "StateEquation" "picard_verbose" = None ->
      picard_verbose ap = false)).
Proof.
  split.
  - intros Hr Ha Hi Hv. unfold init, Config.getfloat, Config.getint,
      Config.getboolean, Config.get_conv.
    now rewrite Hr, Ha, Hi, Hv.
  - intros ap. rewrite init_getters.
    destruct (Config.getfloat _ _ _ "picard_rtol" _) as [r |] eqn:Hr; [| discriminate].
    destruct (Config.getfloat _ _ _ "picard_atol" _) as [a |] eqn:Ha; [| discriminate].
    destruct (Config.getint _ _ _ _ _) as [m |] eqn:Hm; [| discriminate].
    destruct (Config.getboolean _ _ _ _) as [v |] eqn:Hv; [| discriminate].
    intros [= <-]. simpl.
    split; [| split; [| split]]; intros Hn.
    + exact (get_conv_absent _ _ _ _ _ _ Hr Hn).
    + exact (get_conv_absent _ _ _ _ _ _ Ha Hn).
    + exact (get_conv_absent _ _ _ _ _ _ Hm Hn).
    + exact (get_conv_absent _ _ _ _ _ _ Hv Hn).
Qed.

(** ** The claims on concrete runs *)

(** With the default tolerances and a residual of 2^-50 at sweep 0, the
    loop leaves by the tolerance test at sweep 0, where the test of the
    specification does not hold; with tolerances 1/4 and 1/2 and residuals
    1, 1/2, 1/8, the residual of sweep 1 equals the absolute tolerance, so
    that the test of the specification holds there, and the loop goes on
    to leave at sweep 2. *)
Lemma C1_counterexample :
  (sum_squares (H := synthetic tiny) coupled_default 0%nat 0%nat
   = Val (mul (lit 0x1p-50%float) (lit 0x1p-50%float)) /\
   sqrt (mul (lit 0x1p-50%float) (lit 0x1p-50%float)) = lit 0x1p-50%float /\
   spec_tolerance_met coupled_default 0 (lit 0x1p-50%float) (lit 0x1p-50%float) = false /\
   fst (picard (H := synthetic tiny) coupled_default fresh_start) = Val (ExitTol 0)) /\
  (sum_squares (H := synthetic halving) coupled_loose 0%nat 0%nat = Val (lit 1%float) /\
   sum_squares (H := synthetic halving) coupled_loose 0%nat
     (adj_at (H := synthetic halving) coupled_loose 0%nat 0%nat 1)
   = Val (lit 0.25%float) /\
   sqrt (lit 1%float) = lit 1%float /\
   sqrt (lit 0.25%float) = lit 0.5%float /\
   spec_tolerance_met coupled_loose 1 (lit 0.5%float) (lit 1%float) = true /\
   verdict (H := synthetic halving) coupled_loose 0%nat 0%nat 1 = VUnmet /\
   fst (picard (H := synthetic halving) coupled_loose fresh_start) = Val (ExitTol 2)).
Proof. vm_compute. repeat split; reflexivity. Qed.

(** The ratio stays above the relative tolerance 2^-20 and the residual
    drops below the absolute tolerance 1/4 at sweep 2: the loop leaves at
    sweep 2. *)
Lemma C1_witness :
  fst (picard (H := synthetic halving) coupled_abs fresh_start) = Val (ExitTol 2).
Proof.
  apply (proj2 (C1_tolerance_exit (H := synthetic halving) coupled_abs fresh_start 2)).
  split; [vm_compute; discriminate|]. split.
  - intros [| [| j]] Hj; [reflexivity | reflexivity | lia].
  - exists (lit 0x1p-6%float), (lit 1%float). vm_compute. repeat split; reflexivity.
Defined.

Lemma C2_witness :
  exists r wm evs,
    picard_at (H := synthetic halving) coupled_strict 1 fresh_start = Some (r, wm) /\
    picard_body (H := synthetic halving) coupled_strict 1 r wm
    = (Exn (SystemExit "Failed to solve the Picard Iteration"),
       log_app wm (check_events (H := synthetic halving) coupled_strict 1 r wm)) /\
    picard (H := synthetic halving) coupled_strict fresh_start
    = (Exn (SystemExit "Failed to solve the Picard Iteration"),
       log_app wm (check_events (H := synthetic halving) coupled_strict 1 r wm)) /\
    adjoints wm = adj_at (H := synthetic halving) coupled_strict 0%nat 0%nat 1 /\
    log (log_app wm (check_events (H := synthetic halving) coupled_strict 1 r wm))
    = [] ++ evs /\
    solved evs = concat (repeat (descending 2) 1).
Proof.
  apply (C2_max_sweep_exhaustion (H := synthetic halving) coupled_strict fresh_start).
  - vm_compute. discriminate.
  - intros [| [| j]] Hj; [reflexivity | reflexivity |].
    exfalso. revert Hj. unfold coupled_strict, problem, maxiter. lia.
Defined.

Lemma C5_witness :
  picard (H := synthetic [zero]) coupled_default fresh_start
  = (Val (ExitZero 0),
     log_app fresh_start
       (residual_events (H := synthetic [zero]) coupled_default 0%nat 0%nat)) /\
  solved (residual_events (H := synthetic [zero]) coupled_default 0%nat 0%nat) = [].
Proof.
  apply (C5_zero_fast_path (H := synthetic [zero]) coupled_default fresh_start zero).
  - vm_compute. discriminate.
  - reflexivity.
  - reflexivity.
Defined.

Lemma C3_witness :
  solve_times (H := synthetic halving) coupled_loose 3 cached
  = (Val [7%nat; 7%nat; 7%nat],
     mkWorld 7%nat 7%nat true 3 [EvStateSolve; EvStateSolve; EvStateSolve]) /\
  solve_times (H := synthetic halving) coupled_loose 3 fresh_start
  = (Val [2%nat; 2%nat; 2%nat],
     mkWorld 3%nat 2%nat true 1
       (log (snd (solve (H := synthetic halving) coupled_loose fresh_start))
        ++ [EvStateSolve; EvStateSolve])).
Proof.
  split.
  - apply (proj1 (C3_idempotence (H := synthetic halving) coupled_loose cached 3)).
    reflexivity.
  - apply (proj2 (C3_idempotence (H := synthetic halving) coupled_loose fresh_start 2)
             2%nat (snd (solve (H := synthetic halving) coupled_loose fresh_start))).
    + reflexivity.
    + vm_compute. reflexivity.
Defined.

Lemma C6_witness :
  (has_solution (snd (solve (H := synthetic halving) uncoupled fresh_start)) = true /\
   number_of_solves (snd (solve (H := synthetic halving) uncoupled fresh_start))
   = number_of_solves fresh_start + 1) /\
  (has_solution (snd (solve (H := synthetic halving) coupled_loose fresh_start)) = true /\
   number_of_solves (snd (solve (H := synthetic halving) coupled_loose fresh_start))
   = number_of_solves fresh_start + 1).
Proof.
  split.
  - apply (C6_success_sets_flag_and_counter (H := synthetic halving) uncoupled
             fresh_start _ 321%nat); [reflexivity | vm_compute; reflexivity].
  - apply (C6_success_sets_flag_and_counter (H := synthetic halving) coupled_loose
             fresh_start _ 2%nat); [reflexivity | vm_compute; reflexivity].
Defined.

Lemma C8_witness :
  init (fun _ => None) (fun _ => None) bare_handler
  = Val (problem 2 true (lit 1e-10%float) (lit 1e-12%float) 50 false) /\
  init (fun _ => None) (fun _ => None) other_entries_handler
  = Val (problem 2 false (lit 1e-10%float) (lit 1e-12%float) 50 false).
Proof.
  split.
  - apply (proj1 (C8_defaults (fun _ => None) (fun _ => None) bare_handler));
      reflexivity.
  - apply (proj1 (C8_defaults (fun _ => None) (fun _ => None) other_entries_handler));
      vm_compute; reflexivity.
Defined.



Lemma C10_witness :
  has_solution fresh_start = false /\
  state_is_picard coupled_strict = true /\
  has_solution (snd (solve (H := synthetic halving) coupled_strict fresh_start)) = false /\
  number_of_solves (snd (solve (H := synthetic halving) coupled_strict fresh_start))
  = number_of_solves fresh_start /\
  solve (H := synthetic halving) coupled_strict
    (snd (solve (H := synthetic halving) coupled_strict fresh_start))
  = match recompute (H := synthetic halving) coupled_strict
            (state_solved (H := synthetic halving)
               (snd (solve (H := synthetic halving) coupled_strict fresh_start))) with
    | (Val _, w1) => (Val (adjoints w1), w1)
    | (Exn e, w1) => (Exn e, w1)
    end.
Proof.
  apply (C10_failure_leaves_cache_stale (H := synthetic halving) coupled_strict
           fresh_start _ "Failed to solve the Picard Iteration").
  vm_compute. reflexivity.
Defined.

(** ** The outcomes of the Picard loop *)

Section Outcomes.

Context {Fwd Adj : Type} `{Backend Fwd Adj}.

Variable self : AdjointProblem.

#[local] Abbreviation World := (@World Fwd Adj).

(** [scan] passes over the sweeps that neither stop nor fail. *)
Lemma scan_skip (fwd : Fwd) (adj : Adj) (fuel n k : nat) :
  (forall j, (k <= j < k + n)%nat ->
     verdict self fwd adj j = VUnmet /\ Z.of_nat j <> maxiter self) ->
  scan self fwd adj (n + fuel) k = scan self fwd adj fuel (k + n).
Proof.
  revert k. induction n as [| n IH]; intros k Hun.
  - simpl. now rewrite Nat.add_0_r.
  - destruct (Hun k ltac:(lia)) as [Hv Hm]. apply Z.eqb_neq in Hm.
    cbn [Nat.add scan]. rewrite Hv, Hm, IH.
    + f_equal. lia.
    + intros j Hj. apply Hun. lia.
Qed.

(** [scan] stops at a sweep whose residual is zero, within tolerance or
    not assembled, and at the index [maxiter]. *)
Lemma scan_stop (fwd : Fwd) (adj : Adj) (fuel k : nat) :
  verdict self fwd adj k <> VUnmet \/ Z.of_nat k = maxiter self ->
  scan self fwd adj (S fuel) k = outcome_at self fwd adj k.
Proof.
  intros Hstop. unfold outcome_at. cbn [scan].
  destruct (verdict self fwd adj k) as [| | | e]; try reflexivity.
  destruct Hstop as [Hne | Hm]; [congruence|].
  apply Z.eqb_eq in Hm. now rewrite Hm.
Qed.

(** Either no sweep of the range stops, or there is a first one. *)
Lemma scan_first (fwd : Fwd) (adj : Adj) (fuel k : nat) :
  (scan self fwd adj fuel k = Val Exhausted /\
   forall j, (k <= j < k + fuel)%nat ->
     verdict self fwd adj j = VUnmet /\ Z.of_nat j <> maxiter self) \/
  (exists k', (k <= k' < k + fuel)%nat /\
     (forall j, (k <= j < k')%nat ->
        verdict self fwd adj j = VUnmet /\ Z.of_nat j <> maxiter self) /\
     (verdict self fwd adj k' <> VUnmet \/ Z.of_nat k' = maxiter self) /\
     scan self fwd adj fuel k = outcome_at self fwd adj k').
Proof.
  revert k. induction fuel as [| fuel IH]; intros k.
  - left. split; [reflexivity | lia].
  - destruct (verdict self fwd adj k) as [| | | e] eqn:Hv.
    + right. exists k. split; [lia|]. split; [lia|].
      split; [left; congruence|]. apply scan_stop. left. congruence.
    + right. exists k. split; [lia|]. split; [lia|].
      split; [left; congruence|]. apply scan_stop. left. congruence.
    + destruct (Z.eq_dec (Z.of_nat k) (maxiter self)) as [Hm | Hm].
      * right. exists k. split; [lia|]. split; [lia|].
        split; [now right|]. apply scan_stop. now right.
      * assert (Hstep : scan self fwd adj (S fuel) k = scan self fwd adj fuel (S k)).
        { cbn [scan]. rewrite Hv. apply Z.eqb_neq in Hm. now rewrite Hm. }
        rewrite Hstep.
        destruct (IH (S k)) as [[Hex Hall] | (k' & Hr & Hun & Hst & Hsc)].
        -- left. split; [exact Hex|]. intros j Hj.
           destruct (Nat.eq_dec j k) as [-> | Hne]; [auto | apply Hall; lia].
        -- right. exists k'. split; [lia|]. split; [| auto].
           intros j Hj.
           destruct (Nat.eq_dec j k) as [-> | Hne]; [auto | apply Hun; lia].
    + right. exists k. split; [lia|]. split; [lia|].
      split; [left; congruence|]. apply scan_stop. left. congruence.
Qed.

(** The first sweep that stops is unique. *)
Lemma first_stop_unique (fwd : Fwd) (adj : Adj) (k1 k2 : nat) :
  (forall j, (j < k1)%nat ->
     verdict self fwd adj j = VUnmet /\ Z.of_nat j <> maxiter self) ->
  (verdict self fwd adj k1 <> VUnmet \/ Z.of_nat k1 = maxiter self) ->
  (forall j, (j < k2)%nat ->
     verdict self fwd adj j = VUnmet /\ Z.of_nat j <> maxiter self) ->
  (verdict self fwd adj k2 <> VUnmet \/ Z.of_nat k2 = maxiter self) ->
  k1 = k2.
Proof.
  intros H1 S1 H2 S2.
  destruct (Nat.lt_trichotomy k1 k2) as [Hlt | [Heq | Hgt]]; [| exact Heq |].
  - destruct (H2 k1 Hlt) as [Hv Hm]. destruct S1; contradiction.
  - destruct (H1 k2 Hgt) as [Hv Hm]. destruct S2; contradiction.
Qed.

(** The outcome of the Picard loop: with a negative [maxiter] the body is
    never run; otherwise the loop stops in the first iteration [k] whose
    residual is zero, within tolerance or not assembled, and at the latest
    in iteration [maxiter]. *)
Lemma picard_outcome (w : World) :
  (maxiter self < 0 /\ fst (picard self w) = Val Exhausted) \/
  (exists k, Z.of_nat k <= maxiter self /\
     (forall j, (j < k)%nat ->
        verdict self (forward w) (adjoints w) j = VUnmet /\
        Z.of_nat j <> maxiter self) /\
     (verdict self (forward w) (adjoints w) k <> VUnmet \/
      Z.of_nat k = maxiter self) /\
     fst (picard self w) = outcome_at self (forward w) (adjoints w) k).
Proof.
  rewrite picard_scan.
  destruct (scan_first (forward w) (adjoints w) (Z.to_nat (maxiter self + 1)) 0)
    as [[Hex Hall] | (k & Hr & Hun & Hst & Hsc)].
  - left. split; [| exact Hex].
    destruct (Z.lt_ge_cases (maxiter self) 0) as [Hneg | Hpos]; [exact Hneg|].
    destruct (Hall (Z.to_nat (maxiter self)) ltac:(lia)) as [_ Hm]. lia.
  - right. exists k. split; [lia|]. split; [| auto].
    intros j Hj. apply Hun. lia.
Qed.

(** The converse: the outcome at a first stopping sweep in the range. *)
Lemma picard_outcome_at (w : World) (k : nat) :
  Z.of_nat k <= maxiter self ->
  (forall j, (j < k)%nat -> verdict self (forward w) (adjoints w) j = VUnmet) ->
  verdict self (forward w) (adjoints w) k <> VUnmet \/ Z.of_nat k = maxiter self ->
  fst (picard self w) = outcome_at self (forward w) (adjoints w) k.
Proof.
  intros Hk Hun Hst. rewrite picard_scan.
  replace (Z.to_nat (maxiter self + 1))
    with (k + S (Z.to_nat (maxiter self) - k))%nat by lia.
  rewrite scan_skip; [now apply scan_stop|].
  intros j Hj. split; [apply Hun |]; lia.
Qed.

(** *** The verdicts, spelled out *)

Lemma verdict_unmet_start (fwd : Fwd) (adj : Adj) (j : nat) :
  verdict self fwd adj j = VUnmet ->
  exists s0, sum_squares self fwd adj = Val s0.
Proof.
  unfold verdict.
  destruct (sum_squares self fwd (adj_at self fwd adj j)) as [s | e];
    [| discriminate].
  destruct (sum_squares self fwd adj) as [s0 | e0]; [| discriminate].
  intros _. now exists s0.
Qed.

(** Once the sweeps before [k] have gone on, the residual of sweep 0 has
    been assembled. *)
Lemma start_assembled (fwd : Fwd) (adj : Adj) (k : nat) (r : Res f64) :
  (forall j, (j < k)%nat -> verdict self fwd adj j = VUnmet) ->
  sum_squares self fwd (adj_at self fwd adj k) = r ->
  (k = O /\ sum_squares self fwd adj = r) \/
  (exists s0, sum_squares self fwd adj = Val s0).
Proof.
  intros Hun Hr. destruct k as [| k].
  - left. split; [reflexivity | exact Hr].
  - right. apply (verdict_unmet_start fwd adj O). apply Hun. lia.
Qed.

Lemma verdict_zero_iff (fwd : Fwd) (adj : Adj) (k : nat) :
  (forall j, (j < k)%nat -> verdict self fwd adj j = VUnmet) ->
  verdict self fwd adj k = VZero <->
  exists s, sum_squares self fwd (adj_at self fwd adj k) = Val s /\
            eqb s zero = true.
Proof.
  intros Hun. unfold verdict. split.
  - destruct (sum_squares self fwd (adj_at self fwd adj k)) as [s | e];
      [| discriminate].
    destruct (sum_squares self fwd adj) as [s0 | e0]; [| discriminate].
    destruct (eqb s zero) eqn:Hz.
    + intros _. now exists s.
    + destruct (tolerance_met self (sqrt s) (sqrt s0)); discriminate.
  - intros (s & Hs & Hz).
    destruct (start_assembled fwd adj k _ Hun Hs) as [[_ H0] | [s0 H0]];
      rewrite Hs, H0, Hz; reflexivity.
Qed.

Lemma verdict_error_iff (fwd : Fwd) (adj : Adj) (k : nat) (e : PyExn) :
  (forall j, (j < k)%nat -> verdict self fwd adj j = VUnmet) ->
  verdict self fwd adj k = VError e <->
  sum_squares self fwd (adj_at self fwd adj k) = Exn e.
Proof.
  intros Hun. unfold verdict. split.
  - destruct (sum_squares self fwd (adj_at self fwd adj k)) as [s | e1] eqn:Hs.
    + destruct (start_assembled fwd adj k _ Hun Hs) as [[_ H0] | [s0 H0]];
        rewrite H0;
        destruct (eqb s zero); try discriminate;
        destruct (tolerance_met self (sqrt s) _); discriminate.
    + now intros [= ->].
  - intros Hs. now rewrite Hs.
Qed.

(** *** Exits and failures of the loop *)

(** X1: the loop leaves by the [break] of line 91 at sweep [k] exactly
    when [k] is at most [maxiter], no sweep before [k] found its residual
    zero or within tolerance, and the sum of squares of sweep [k] is
    zero. *)
Theorem picard_zero_exit_iff (w : World) (k : nat) :
  fst (picard self w) = Val (ExitZero (Z.of_nat k)) <->
  Z.of_nat k <= maxiter self /\
  (forall j, (j < k)%nat -> verdict self (forward w) (adjoints w) j = VUnmet) /\
  exists s,
    sum_squares self (forward w) (adj_at self (forward w) (adjoints w) k) = Val s /\
    eqb s zero = true.
Proof.
  split.
  - intros Hex.
    destruct (picard_outcome w) as [[_ Hx] | (k' & Hk & Hun & Hst & Hout)];
      [congruence|].
    rewrite Hex in Hout. unfold outcome_at in Hout.
    destruct (verdict self (forward w) (adjoints w) k') as [| | | e] eqn:Hv;
      try discriminate.
    injection Hout as Hkk. apply Nat2Z.inj in Hkk. subst k'.
    split; [exact Hk|]. split; [intros j Hj; now apply Hun|].
    apply verdict_zero_iff; [intros j Hj; now apply Hun | exact Hv].
  - intros (Hk & Hun & Hs).
    apply (verdict_zero_iff _ _ k Hun) in Hs.
    rewrite (picard_outcome_at w k Hk Hun); [| left; congruence].
    unfold outcome_at. now rewrite Hs.
Qed.

(** X2: the loop raises [SystemExit] exactly when [maxiter] is not
    negative and no sweep up to index [maxiter] finds its residual zero or
    within tolerance; the message is the one of line 105. *)
Theorem picard_fails_iff (w : World) (msg : string) :
  fst (picard self w) = Exn (SystemExit msg) <->
  msg = "Failed to solve the Picard Iteration"%string /\
  0 <= maxiter self /\
  forall j, Z.of_nat j <= maxiter self ->
    verdict self (forward w) (adjoints w) j = VUnmet.
Proof.
  split.
  - intros Hex.
    destruct (picard_outcome w) as [[_ Hx] | (k & Hk & Hun & Hst & Hout)];
      [congruence|].
    rewrite Hex in Hout. unfold outcome_at in Hout.
    destruct (verdict self (forward w) (adjoints w) k) as [| | | e] eqn:Hv;
      try discriminate.
    + injection Hout as ->. destruct Hst as [Hne | Hm]; [congruence|].
      split; [reflexivity|]. split; [lia|]. intros j Hj.
      destruct (Nat.eq_dec j k) as [-> | Hne]; [exact Hv|].
      apply Hun. lia.
    + injection Hout as <-. apply verdict_error in Hv. discriminate.
  - intros (-> & Hpos & Hun).
    rewrite (picard_outcome_at w (Z.to_nat (maxiter self))).
    + unfold outcome_at. rewrite Hun by lia. reflexivity.
    + lia.
    + intros j Hj. apply Hun. lia.
    + right. lia.
Qed.

(** X3: the loop raises [OverflowError] exactly when, at some sweep [k]
    up to [maxiter] before which no residual was zero or within tolerance,
    the square of a residual norm raises it: the C library reports a
    range error for it, or returns an infinity. *)
Theorem picard_overflow_iff (w : World) :
  fst (picard self w) = Exn OverflowError <->
  exists k,
    Z.of_nat k <= maxiter self /\
    (forall j, (j < k)%nat -> verdict self (forward w) (adjoints w) j = VUnmet) /\
    sum_squares self (forward w) (adj_at self (forward w) (adjoints w) k)
    = Exn OverflowError.
Proof.
  split.
  - intros Hex.
    destruct (picard_outcome w) as [[_ Hx] | (k & Hk & Hun & Hst & Hout)];
      [congruence|].
    rewrite Hex in Hout. unfold outcome_at in Hout.
    destruct (verdict self (forward w) (adjoints w) k) as [| | | e] eqn:Hv;
      try discriminate.
    injection Hout as <-.
    exists k. split; [exact Hk|]. split; [intros j Hj; now apply Hun|].
    apply verdict_error_iff; [intros j Hj; now apply Hun | exact Hv].
  - intros (k & Hk & Hun & Hs).
    apply (verdict_error_iff _ _ k _ Hun) in Hs.
    rewrite (picard_outcome_at w k Hk Hun); [| left; congruence].
    unfold outcome_at. now rewrite Hs.
Qed.

(** *** The world at the end of the loop *)

Lemma quiet_app (e1 e2 : list Event) : quiet (e1 ++ e2) = quiet e1 ++ quiet e2.
Proof. apply flat_map_app. Qed.

Lemma reported_app (e1 e2 : list Event) :
  reported (e1 ++ e2) = reported e1 ++ reported e2.
Proof. apply flat_map_app. Qed.

Lemma assembled_app (e1 e2 : list Event) :
  assembled (e1 ++ e2) = assembled e1 ++ assembled e2.
Proof. apply flat_map_app. Qed.

Lemma state_solves_app (e1 e2 : list Event) :
  state_solves (e1 ++ e2) = state_solves e1 ++ state_solves e2.
Proof. apply flat_map_app. Qed.

Lemma printed_app (e1 e2 : list Event) :
  printed (e1 ++ e2) = printed e1 ++ printed e2.
Proof. apply flat_map_app. Qed.

(** The assemblies of a residual are calls, not printed lines. *)
Lemma residual_events_from_views (js : list nat) (fwd : Fwd) (adj : Adj) :
  quiet (residual_events_from js fwd adj) = residual_events_from js fwd adj /\
  reported (residual_events_from js fwd adj) = [] /\
  state_solves (residual_events_from js fwd adj) = [] /\
  printed (residual_events_from js fwd adj) = [].
Proof.
  induction js as [| j js (IH1 & IH2 & IH3 & IH4)]; [repeat split|].
  cbn [residual_events_from].
  destruct (py_pow2 libm_pow2 (residual_norm j fwd adj)); [| repeat split].
  change (EvAssembleResidual j :: residual_events_from js fwd adj)
    with ([EvAssembleResidual j] ++ residual_events_from js fwd adj).
  rewrite quiet_app, reported_app, state_solves_app, printed_app, IH1, IH2, IH3, IH4.
  repeat split.
Qed.

(** A residual that is assembled in full takes the forms in the order
    [0, ..., N-1]. *)
Lemma residual_events_from_val (js : list nat) (fwd : Fwd) (adj : Adj)
    (res s : f64) :
  sum_squares_from js fwd adj res = Val s ->
  residual_events_from js fwd adj = map EvAssembleResidual js.
Proof.
  revert res. induction js as [| j js IH]; intros res; [reflexivity|].
  cbn [sum_squares_from residual_events_from map].
  destruct (py_pow2 libm_pow2 (residual_norm j fwd adj)) as [sq |]; [| discriminate].
  intros Hs. f_equal. now apply (IH (add res sq)).
Qed.

Lemma assembled_map (js : list nat) : assembled (map EvAssembleResidual js) = js.
Proof. induction js as [| j js IH]; simpl; congruence. Qed.

Lemma fenics_views (ks : list nat) :
  quiet (map EvFenicsSolve ks) = map EvFenicsSolve ks /\
  reported (map EvFenicsSolve ks) = [] /\
  assembled (map EvFenicsSolve ks) = [] /\
  state_solves (map EvFenicsSolve ks) = [] /\
  printed (map EvFenicsSolve ks) = [].
Proof.
  induction ks as [| k ks (IH1 & IH2 & IH3 & IH4 & IH5)]; [repeat split|].
  cbn [map].
  change (EvFenicsSolve k :: map EvFenicsSolve ks)
    with ([EvFenicsSolve k] ++ map EvFenicsSolve ks).
  rewrite quiet_app, reported_app, assembled_app, state_solves_app, printed_app,
    IH1, IH2, IH3, IH4, IH5.
  repeat split.
Qed.

(** The events of an iteration before its sweep, view by view. *)
Lemma check_events_views (i : Z) (r : option f64) (w : World) :
  quiet (check_events self i r w)
  = residual_events self (forward w) (adjoints w) /\
  state_solves (check_events self i r w) = [] /\
  assembled (check_events self i r w)
  = assembled (residual_events self (forward w) (adjoints w)) /\
  (picard_verbose self = false -> printed (check_events self i r w) = []).
Proof.
  unfold check_events.
  rewrite quiet_app, state_solves_app, assembled_app, printed_app.
  destruct (residual_events_from_views (seq 0 (state_dim self)) (forward w)
              (adjoints w)) as (Hq & _ & Hs & Hp).
  fold (residual_events self (forward w) (adjoints w)) in Hq, Hs, Hp.
  rewrite Hq, Hs, Hp.
  destruct (sum_squares self (forward w) (adjoints w)) as [s | e];
    [| rewrite !app_nil_r; repeat split].
  destruct (eqb s zero); [rewrite !app_nil_r; repeat split|].
  destruct (reference i (sqrt s) r) as [r0 |]; [| rewrite !app_nil_r; repeat split].
  destruct (picard_verbose self); simpl; rewrite !app_nil_r; repeat split.
  discriminate.
Qed.

(** The iterations before a reachable one went on. *)
Lemma picard_at_before (k : nat) (r : option f64) (w wk : World) :
  picard_at self k w = Some (r, wk) ->
  forall j, (j < k)%nat ->
    verdict self (forward w) (adjoints w) j = VUnmet /\
    Z.of_nat j <> maxiter self.
Proof.
  revert r wk. induction k as [| k IH]; intros r wk Hat j Hj; [lia|].
  simpl in Hat.
  destruct (picard_at self k w) as [[r1 w1] |] eqn:Hk; [| discriminate].
  destruct (Nat.eq_dec j k) as [-> | Hne]; [| apply (IH r1 w1 eq_refl); lia].
  pose proof (picard_body_verdict self k r1 w w1 Hk) as Hv.
  destruct (picard_body self (Z.of_nat k) r1 w1) as [[[c r2] | e] w2];
    try discriminate.
  destruct c; try discriminate. simpl in Hv.
  destruct (verdict self (forward w) (adjoints w) k) as [| | | e].
  - destruct Hv as [r' Hv]. discriminate.
  - destruct Hv as [r' Hv]. discriminate.
  - destruct (Z.of_nat k =? maxiter self) eqn:Hm; [discriminate|].
    apply Z.eqb_neq in Hm. auto.
  - discriminate.
Qed.

(** A reachable iteration that does not run to the end of its body is a
    stopping sweep. *)
Lemma picard_at_stop (k : nat) (r : option f64) (w wk : World) :
  picard_at self k w = Some (r, wk) ->
  (forall r', fst (picard_body self (Z.of_nat k) r wk) <> Val (Continue, r')) ->
  verdict self (forward w) (adjoints w) k <> VUnmet \/
  Z.of_nat k = maxiter self.
Proof.
  intros Hat Hne.
  pose proof (picard_body_verdict self k r w wk Hat) as Hv.
  destruct (verdict self (forward w) (adjoints w) k) as [| | | e];
    try (left; discriminate).
  destruct (Z.of_nat k =? maxiter self) eqn:Hm.
  - right. now apply Z.eqb_eq.
  - destruct Hv as [r' Hv]. now apply Hne in Hv.
Qed.

(** The loop ends in a reachable iteration that stops, and leaves the
    world of that iteration with the events of its check appended. *)
Lemma picard_loop_end (w : World) (fuel k : nat) (r : option f64) (wk : World) :
  picard_at self k w = Some (r, wk) ->
  Z.of_nat k <= maxiter self < Z.of_nat (k + fuel) ->
  exists k' r' wk',
    Z.of_nat k' <= maxiter self /\
    picard_at self k' w = Some (r', wk') /\
    (forall r'', fst (picard_body self (Z.of_nat k') r' wk') <> Val (Continue, r'')) /\
    snd (picard_loop self (map Z.of_nat (seq k fuel)) r wk)
    = log_app wk' (check_events self (Z.of_nat k') r' wk').
Proof.
  revert k r wk. induction fuel as [| fuel IH]; intros k r wk Hat Hk; [lia|].
  cbn [seq map picard_loop]. unfold bind.
  pose proof (picard_body_world self (Z.of_nat k) r wk) as Hw.
  destruct (picard_body self (Z.of_nat k) r wk) as [[[c r1] | e] w1] eqn:Hb.
  - destruct c.
    + exists k, r, wk. rewrite Hb. simpl in Hw |- *.
      split; [lia|]. split; [exact Hat|]. split; [discriminate | exact Hw].
    + exists k, r, wk. rewrite Hb. simpl in Hw |- *.
      split; [lia|]. split; [exact Hat|]. split; [discriminate | exact Hw].
    + pose proof Hb as Hc.
      apply picard_body_continue in Hc as (s & r0 & _ & _ & _ & _ & _ & Hm).
      apply Z.eqb_neq in Hm.
      apply (IH (S k) r1 w1).
      * simpl. now rewrite Hat, Hb.
      * lia.
  - exists k, r, wk. rewrite Hb. simpl in Hw |- *.
    split; [lia|]. split; [exact Hat|]. split; [discriminate | exact Hw].
Qed.

(** The events up to a reachable iteration: sweep after sweep, the
    assemblies of the residual, the report when the loop is verbose, and
    the subsystem solves. *)
Lemma picard_at_trace (k : nat) (r : option f64) (w wk : World) :
  picard_at self k w = Some (r, wk) ->
  exists evs,
    wk = with_adjoints (log_app w evs) (adj_at self (forward w) (adjoints w) k) /\
    quiet evs = flat_map (sweep_trace self (forward w) (adjoints w)) (seq 0 k) /\
    state_solves evs = [] /\
    assembled evs = concat (repeat (seq 0 (state_dim self)) k) /\
    reported evs = (if picard_verbose self then map Z.of_nat (seq 0 k) else []) /\
    (picard_verbose self = false -> printed evs = []) /\
    solved evs = concat (repeat (descending (state_dim self)) k).
Proof.
  revert r wk. induction k as [| k IH]; intros r wk Hat.
  - simpl in Hat. injection Hat as <- <-. exists []. simpl.
    rewrite with_adjoints_id. repeat split. now destruct (picard_verbose self).
  - simpl in Hat.
    destruct (picard_at self k w) as [[r1 w1] |] eqn:Hk; [| discriminate].
    destruct (IH r1 w1 eq_refl) as (evs & Hw1 & Hq & Hss & Has & Hrep & Hpr & Hsol).
    pose proof (picard_body_world self (Z.of_nat k) r1 w1) as Hw.
    destruct (picard_body self (Z.of_nat k) r1 w1) as [[[c r2] | e] w2] eqn:Hb;
      try discriminate.
    destruct c; try discriminate. injection Hat as -> ->.
    simpl in Hw.
    pose proof Hb as Hc.
    apply picard_body_continue in Hc as (s & r0 & Hs & Hz & Hr0 & _ & _ & _).
    destruct (check_events_views (Z.of_nat k) r1 w1) as (Hcq & Hcs & Hca & Hcp).
    destruct (fenics_views (descending (state_dim self)))
      as (Hfq & Hfr & Hfa & Hfs & Hfp).
    assert (Hf1 : forward w1 = forward w) by (now rewrite Hw1).
    assert (Ha1 : adjoints w1 = adj_at self (forward w) (adjoints w) k)
      by (now rewrite Hw1).
    exists (evs ++ check_events self (Z.of_nat k) r1 w1 ++
            map EvFenicsSolve (descending (state_dim self))).
    split; [| split; [| split; [| split; [| split; [| split]]]]].
    + rewrite Hw. rewrite Hw1 at 1. rewrite with_adjoints_step.
      now rewrite Hf1, Ha1.
    + rewrite !quiet_app, Hq, Hcq, Hfq, Hf1, Ha1, seq_S, flat_map_app.
      simpl. now rewrite app_nil_r.
    + now rewrite !state_solves_app, Hss, Hcs, Hfs.
    + rewrite !assembled_app, Has, Hca, Hfa, app_nil_r.
      unfold residual_events.
      rewrite (residual_events_from_val _ _ _ zero s Hs), assembled_map.
      apply concat_repeat_snoc.
    + rewrite !reported_app, Hrep, Hfr, app_nil_r.
      unfold check_events. rewrite reported_app.
      destruct (residual_events_from_views (seq 0 (state_dim self)) (forward w1)
                  (adjoints w1)) as (_ & Hrr & _ & _).
      fold (residual_events self (forward w1) (adjoints w1)) in Hrr.
      rewrite Hrr, Hs, Hz, Hr0.
      destruct (picard_verbose self); [| reflexivity].
      rewrite seq_S, map_app. reflexivity.
    + intros Hv. rewrite !printed_app, (Hpr Hv), (Hcp Hv), Hfp. reflexivity.
    + rewrite !solved_app, solved_check_events, solved_fenics, Hsol.
      apply concat_repeat_snoc.
Qed.

(** At a reachable iteration whose residual is assembled, the reference
    is the residual of sweep 0. *)
Lemma picard_at_reference_at (k : nat) (r : option f64) (w wk : World) (s : f64) :
  picard_at self k w = Some (r, wk) ->
  sum_squares self (forward w) (adj_at self (forward w) (adjoints w) k) = Val s ->
  exists s0,
    sum_squares self (forward w) (adjoints w) = Val s0 /\
    reference (Z.of_nat k) (sqrt s) r = Some (sqrt s0).
Proof.
  intros Hat Hs. destruct k as [| k].
  - simpl in Hat. injection Hat as <- <-. exists s. split; [exact Hs | reflexivity].
  - destruct (picard_at_reference self k r w wk Hat) as (s0 & H0 & _ & ->).
    exists s0. split; [exact H0|]. unfold reference.
    destruct (Z.of_nat (S k) =? 0) eqn:E; [| reflexivity].
    apply Z.eqb_eq in E. lia.
Qed.

(** The reports of the iteration in which the loop ends. *)
Lemma check_events_reported (k : nat) (r : option f64) (w wk : World) :
  picard_at self k w = Some (r, wk) ->
  reported (check_events self (Z.of_nat k) r wk)
  = if picard_verbose self
    then match verdict self (forward w) (adjoints w) k with
         | VMet | VUnmet => [Z.of_nat k]
         | _ => []
         end
    else [].
Proof.
  intros Hat.
  destruct (picard_at_forward self k r w wk Hat) as (Hf & Ha & _ & _).
  unfold check_events. rewrite reported_app, Hf, Ha.
  destruct (residual_events_from_views (seq 0 (state_dim self)) (forward w)
              (adj_at self (forward w) (adjoints w) k)) as (_ & Hrr & _ & _).
  fold (residual_events self (forward w) (adj_at self (forward w) (adjoints w) k))
    in Hrr.
  rewrite Hrr. unfold verdict.
  destruct (sum_squares self (forward w) (adj_at self (forward w) (adjoints w) k))
    as [s | e] eqn:Hs; [| now destruct (picard_verbose self)].
  destruct (picard_at_reference_at k r w wk s Hat Hs) as (s0 & H0 & Hr).
  rewrite H0, Hr.
  destruct (eqb s zero); [now destruct (picard_verbose self)|].
  destruct (picard_verbose self); [| reflexivity].
  now destruct (tolerance_met self (sqrt s) (sqrt s0)).
Qed.

(** With a negative [maxiter] the loop has no iteration. *)
Lemma picard_negative (w : World) :
  maxiter self < 0 -> picard self w = (Val Exhausted, w).
Proof.
  intros Hneg. unfold picard, py_range.
  replace (Z.to_nat (maxiter self + 1)) with O by lia. reflexivity.
Qed.

(** A run of the loop with [maxiter >= 0]: the iteration [k] in which it
    ends is the first stopping sweep; its outcome is the one of that
    sweep; the buffers are those after [k] sweeps; and the events added to
    the log are, apart from the reports, the calls of [picard_trace]. *)
Lemma picard_run (w : World) :
  0 <= maxiter self ->
  exists k evs,
    Z.of_nat k <= maxiter self /\
    (forall j, (j < k)%nat ->
       verdict self (forward w) (adjoints w) j = VUnmet /\
       Z.of_nat j <> maxiter self) /\
    (verdict self (forward w) (adjoints w) k <> VUnmet \/
     Z.of_nat k = maxiter self) /\
    picard self w
    = (outcome_at self (forward w) (adjoints w) k,
       with_adjoints (log_app w evs) (adj_at self (forward w) (adjoints w) k)) /\
    quiet evs = picard_trace self (forward w) (adjoints w) k /\
    state_solves evs = [] /\
    reported evs
    = (if picard_verbose self
       then map Z.of_nat (seq 0 k) ++
            match verdict self (forward w) (adjoints w) k with
            | VMet | VUnmet => [Z.of_nat k]
            | _ => []
            end
       else []) /\
    (picard_verbose self = false -> printed evs = []) /\
    solved evs = concat (repeat (descending (state_dim self)) k) /\
    assembled evs
    = concat (repeat (seq 0 (state_dim self)) k) ++
      assembled (residual_events self (forward w)
                   (adj_at self (forward w) (adjoints w) k)).
Proof.
  intros Hpos.
  destruct (picard_loop_end w (Z.to_nat (maxiter self + 1)) 0 None w eq_refl)
    as (k & r & wk & Hk & Hat & Hstop & Hsnd); [lia|].
  fold (py_range (maxiter self + 1)) in Hsnd. fold (picard self w) in Hsnd.
  pose proof (picard_at_before k r w wk Hat) as Hbefore.
  pose proof (picard_at_stop k r w wk Hat Hstop) as Hst.
  destruct (picard_at_trace k r w wk Hat)
    as (evs & Hwk & Hq & Hss & Has & Hrep & Hpr & Hsol).
  destruct (picard_at_forward self k r w wk Hat) as (Hf & Ha & _ & _).
  destruct (check_events_views (Z.of_nat k) r wk) as (Hcq & Hcs & Hca & Hcp).
  exists k, (evs ++ check_events self (Z.of_nat k) r wk).
  split; [exact Hk|]. split; [exact Hbefore|]. split; [exact Hst|].
  split; [| split; [| split; [| split; [| split; [| split]]]]].
  - rewrite (surjective_pairing (picard self w)). f_equal.
    + apply picard_outcome_at; [exact Hk | | exact Hst].
      intros j Hj. now apply Hbefore.
    + rewrite Hsnd. rewrite Hwk at 1. unfold with_adjoints, log_app. simpl.
      now rewrite app_assoc.
  - rewrite quiet_app, Hq, Hcq, Hf, Ha. reflexivity.
  - now rewrite state_solves_app, Hss, Hcs.
  - rewrite reported_app, Hrep, (check_events_reported k r w wk Hat).
    destruct (picard_verbose self); reflexivity.
  - intros Hv. now rewrite printed_app, (Hpr Hv), (Hcp Hv).
  - now rewrite solved_app, Hsol, solved_check_events, app_nil_r.
  - now rewrite assembled_app, Has, Hca, Hf, Ha.
Qed.

(** *** Work done by a run of the loop *)

Lemma outcome_at_exit (fwd : Fwd) (adj : Adj) (k : nat) (i : Z) :
  outcome_at self fwd adj k = Val (ExitZero i) \/
  outcome_at self fwd adj k = Val (ExitTol i) ->
  i = Z.of_nat k.
Proof.
  unfold outcome_at.
  destruct (verdict self fwd adj k); intros [Ho | Ho]; congruence.
Qed.

Lemma outcome_at_exit_unmet (fwd : Fwd) (adj : Adj) (k : nat) (msg : string) :
  outcome_at self fwd adj k = Exn (SystemExit msg) ->
  verdict self fwd adj k = VUnmet.
Proof.
  unfold outcome_at.
  destruct (verdict self fwd adj k) as [| | | e] eqn:Hv; try discriminate;
    [reflexivity|].
  intros [= ->]. apply verdict_error in Hv. discriminate.
Qed.

(** X4: with [maxiter >= 0], the loop performs at most [maxiter] sweeps:
    it ends in an iteration [k <= maxiter], having solved the subsystems
    in [k] whole passes, and leaves the buffers that [k] sweeps produce;
    a [break] happens at index [k], and [SystemExit] only with
    [k = maxiter]. *)
Theorem picard_sweeps_bounded (w : World) :
  0 <= maxiter self ->
  exists k evs,
    Z.of_nat k <= maxiter self /\
    snd (picard self w)
    = with_adjoints (log_app w evs) (adj_at self (forward w) (adjoints w) k) /\
    solved evs = concat (repeat (descending (state_dim self)) k) /\
    (forall i, fst (picard self w) = Val (ExitZero i) \/
               fst (picard self w) = Val (ExitTol i) -> i = Z.of_nat k) /\
    (forall msg, fst (picard self w) = Exn (SystemExit msg) ->
                 Z.of_nat k = maxiter self).
Proof.
  intros Hpos.
  destruct (picard_run w Hpos)
    as (k & evs & Hk & Hun & Hst & Hrun & _ & _ & _ & _ & Hsol & _).
  exists k, evs. rewrite Hrun. simpl.
  split; [exact Hk|]. split; [reflexivity|]. split; [exact Hsol|]. split.
  - apply outcome_at_exit.
  - intros msg Hm. apply outcome_at_exit_unmet in Hm.
    destruct Hst as [Hne | Heq]; [contradiction | exact Heq].
Qed.

Lemma quiet_idle (evs : list Event) :
  solved (quiet evs) = solved evs /\ assembled (quiet evs) = assembled evs.
Proof.
  induction evs as [| ev evs [IH1 IH2]]; [split; reflexivity|].
  change (ev :: evs) with ([ev] ++ evs).
  rewrite quiet_app, !solved_app, !assembled_app, IH1, IH2.
  destruct ev; split; reflexivity.
Qed.

Lemma sweep_traces_full (fwd : Fwd) (adj : Adj) (k : nat) :
  (forall j, (j < k)%nat -> verdict self fwd adj j = VUnmet) ->
  flat_map (sweep_trace self fwd adj) (seq 0 k)
  = concat (repeat (map EvAssembleResidual (seq 0 (state_dim self)) ++
                    map EvFenicsSolve (descending (state_dim self))) k).
Proof.
  induction k as [| k IH]; intros Hun; [reflexivity|].
  rewrite seq_S, flat_map_app, IH by (intros j Hj; apply Hun; lia).
  rewrite <- concat_repeat_snoc. f_equal. simpl. rewrite app_nil_r.
  unfold sweep_trace. f_equal.
  specialize (Hun k ltac:(lia)). unfold verdict in Hun.
  destruct (sum_squares self fwd (adj_at self fwd adj k)) as [s | e] eqn:Hs;
    [| discriminate].
  apply (residual_events_from_val _ _ _ zero s Hs).
Qed.

(** X5: the calls of a run of the loop that does not end in an
    [OverflowError]: each sweep assembles the residual forms in the order
    0, ..., N-1 and then solves the subsystems in the order N-1, ..., 0;
    the iteration in which the loop ends only assembles. *)
Theorem picard_calls_in_order (w : World) :
  0 <= maxiter self ->
  fst (picard self w) <> Exn OverflowError ->
  exists k evs,
    Z.of_nat k <= maxiter self /\
    log (snd (picard self w)) = log w ++ evs /\
    quiet evs
    = concat (repeat (map EvAssembleResidual (seq 0 (state_dim self)) ++
                      map EvFenicsSolve (descending (state_dim self))) k) ++
      map EvAssembleResidual (seq 0 (state_dim self)) /\
    assembled evs = concat (repeat (seq 0 (state_dim self)) (S k)).
Proof.
  intros Hpos Hno.
  destruct (picard_run w Hpos)
    as (k & evs & Hk & Hun & Hst & Hrun & Hq & _ & _ & _ & _ & Has).
  assert (Hun' : forall j, (j < k)%nat ->
                   verdict self (forward w) (adjoints w) j = VUnmet)
    by (intros j Hj; now apply Hun).
  assert (Hres : residual_events self (forward w)
                   (adj_at self (forward w) (adjoints w) k)
                 = map EvAssembleResidual (seq 0 (state_dim self))).
  { destruct (sum_squares self (forward w)
                (adj_at self (forward w) (adjoints w) k)) as [s | e] eqn:Hs.
    - apply (residual_events_from_val _ _ _ zero s Hs).
    - exfalso. apply Hno. rewrite Hrun. simpl. unfold outcome_at.
      pose proof Hs as He. apply sum_squares_from_exn in He. subst e.
      apply (verdict_error_iff _ _ k _ Hun') in Hs. now rewrite Hs. }
  exists k, evs. rewrite Hrun. simpl.
  split; [exact Hk|]. split; [reflexivity|]. split.
  - rewrite Hq. unfold picard_trace. now rewrite sweep_traces_full, Hres.
  - rewrite Has, Hres, assembled_map. apply concat_repeat_snoc.
Qed.

(** X6: what the loop prints.  When it is not verbose, nothing.  When it
    is verbose, one report for each sweep whose residual was assembled and
    was not zero, numbered from 0 in increasing order: [i + 1] reports
    when the loop leaves by the tolerance test at sweep [i], [i] reports
    when it leaves by a zero residual at sweep [i], and [maxiter + 1]
    reports when it fails. *)
Theorem picard_reports (w : World) :
  0 <= maxiter self ->
  exists evs,
    log (snd (picard self w)) = log w ++ evs /\
    (picard_verbose self = false -> printed evs = []) /\
    (picard_verbose self = true ->
     match fst (picard self w) with
     | Val (ExitTol i) => reported evs = py_range (i + 1)
     | Val (ExitZero i) => reported evs = py_range i
     | Exn (SystemExit _) => reported evs = py_range (maxiter self + 1)
     | _ => exists k, Z.of_nat k <= maxiter self /\ reported evs = py_range (Z.of_nat k)
     end).
Proof.
  intros Hpos.
  destruct (picard_run w Hpos)
    as (k & evs & Hk & Hun & Hst & Hrun & _ & _ & Hrep & Hpr & _ & _).
  exists evs. rewrite Hrun. simpl. split; [reflexivity|]. split; [exact Hpr|].
  intros Hv. rewrite Hv in Hrep. rewrite Hrep. unfold outcome_at, py_range.
  destruct (verdict self (forward w) (adjoints w) k) as [| | | e] eqn:Hver.
  - rewrite Nat2Z.id. now rewrite app_nil_r.
  - replace (Z.to_nat (Z.of_nat k + 1)) with (S k) by lia.
    now rewrite seq_S, map_app.
  - destruct Hst as [Hne | Hm]; [contradiction|].
    replace (Z.to_nat (maxiter self + 1)) with (S k) by lia.
    now rewrite seq_S, map_app.
  - apply verdict_error in Hver. subst e.
    exists k. split; [exact Hk|]. rewrite Nat2Z.id. now rewrite app_nil_r.
Qed.

End Outcomes.

(** ** More about [solve] *)

Section Calls.

Context {Fwd Adj : Type} `{Backend Fwd Adj}.

Variable self : AdjointProblem.

#[local] Abbreviation World := (@World Fwd Adj).

Lemma direct_views (ks : list nat) :
  quiet (flat_map (fun k => [EvAssembleSystem k; EvKspSolve k]) ks)
  = flat_map (fun k => [EvAssembleSystem k; EvKspSolve k]) ks /\
  state_solves (flat_map (fun k => [EvAssembleSystem k; EvKspSolve k]) ks) = [] /\
  printed (flat_map (fun k => [EvAssembleSystem k; EvKspSolve k]) ks) = [] /\
  assembled (flat_map (fun k => [EvAssembleSystem k; EvKspSolve k]) ks) = [].
Proof.
  induction ks as [| k ks (IH1 & IH2 & IH3 & IH4)]; [repeat split|].
  cbn [flat_map].
  rewrite quiet_app, state_solves_app, printed_app, assembled_app,
    IH1, IH2, IH3, IH4.
  repeat split.
Qed.

Lemma blank_views (v : bool) :
  quiet (if v then [EvPrintBlank] else []) = [] /\
  state_solves (if v then [EvPrintBlank] else []) = [] /\
  solved (if v then [EvPrintBlank] else []) = [] /\
  assembled (if v then [EvPrintBlank] else []) = [].
Proof. destruct v; repeat split. Qed.

(** X7: the direct strategy on a stale cache, with collaborators that
    return: whatever the tolerances and [maxiter], after the state solve
    the call solves the subsystems N-1, ..., 0, each against the new
    forward state and the buffers as the subsystems before it left them,
    assembling each system just before its solve; then it prints the
    blank line when verbose, sets the flag, adds one to the counter and
    returns the buffers. *)
Theorem solve_direct (w : World) :
  has_solution w = false ->
  state_is_picard self = false ->
  solve self w
  = (Val (direct_adj self (state_solve (forward w)) (adjoints w)),
     mkWorld (state_solve (forward w))
             (direct_adj self (state_solve (forward w)) (adjoints w))
             true
             (number_of_solves w + 1)
             (log w ++ [EvStateSolve] ++
              flat_map (fun k => [EvAssembleSystem k; EvKspSolve k])
                       (descending (state_dim self)) ++
              (if picard_verbose self then [EvPrintBlank] else []))).
Proof.
  intros Hstale Hdirect.
  rewrite solve_eq, Hstale, recompute_eq, Hdirect. simpl negb. cbv iota.
  rewrite direct_pass_eq. unfold finished, with_adjoints, log_app, state_solved.
  simpl. now rewrite <- !app_assoc.
Qed.


Lemma outcome_at_not_exhausted (fwd : Fwd) (adj : Adj) (k : nat) :
  outcome_at self fwd adj k <> Val Exhausted.
Proof. unfold outcome_at. destruct (verdict self fwd adj k); discriminate. Qed.

(** X10: the loop runs out of indices exactly when [maxiter] is negative,
    and then it has no iteration at all: a call on a stale cache assembles
    and solves nothing, returns the buffers as they were, and still sets
    the flag and adds one to the counter. *)
Theorem solve_negative_maxiter (w : World) :
  (fst (picard self w) = Val Exhausted <-> maxiter self < 0) /\
  (maxiter self < 0 ->
   has_solution w = false ->
   state_is_picard self = true ->
   solve self w
   = (Val (adjoints w),
      mkWorld (state_solve (forward w)) (adjoints w) true
              (number_of_solves w + 1)
              (log w ++ [EvStateSolve] ++
               (if picard_verbose self then [EvPrintBlank] else [])))).
Proof.
  split.
  - split.
    + intros Hex.
      destruct (picard_outcome self w) as [[Hneg _] | (k & _ & _ & _ & Hout)];
        [exact Hneg|].
      rewrite Hex in Hout. symmetry in Hout.
      now apply outcome_at_not_exhausted in Hout.
    + intros Hneg. now rewrite picard_negative.
  - intros Hneg Hstale Hpic.
    rewrite solve_eq, Hstale, recompute_eq, Hpic. simpl negb. cbv iota.
    rewrite (picard_negative self _ Hneg).
    unfold finished, state_solved. simpl. now rewrite <- app_assoc.
Qed.

(** X11: without subsystems ([state_dim = 0]) a call on a stale cache
    assembles and solves nothing, whatever the strategy and [maxiter]: the
    sum of squares is the initial 0.0, so the Picard loop, when it has an
    iteration, leaves by the [break] of line 91 at sweep 0. *)
Theorem solve_no_subsystems (w : World) :
  state_dim self = O ->
  has_solution w = false ->
  solve self w
  = (Val (adjoints w),
     mkWorld (state_solve (forward w)) (adjoints w) true
             (number_of_solves w + 1)
             (log w ++ [EvStateSolve] ++
              (if picard_verbose self then [EvPrintBlank] else []))).
Proof.
  intros Hdim Hstale.
  rewrite solve_eq, Hstale, recompute_eq.
  destruct (state_is_picard self); simpl negb; cbv iota.
  - destruct (Z.lt_ge_cases (maxiter self) 0) as [Hneg | Hpos].
    + rewrite (picard_negative self _ Hneg).
      unfold finished, state_solved. simpl. now rewrite <- app_assoc.
    + assert (Hp : picard self (state_solved w)
                   = (Val (ExitZero 0), state_solved w)).
      { unfold picard, py_range.
        replace (Z.to_nat (maxiter self + 1)) with (S (Z.to_nat (maxiter self)))
          by lia.
        cbn [seq map picard_loop]. unfold bind. change (Z.of_nat 0) with 0.
        rewrite picard_body_eq. cbv zeta.
        unfold sum_squares, residual_events. rewrite Hdim. simpl.
        now rewrite log_app_nil. }
      rewrite Hp. unfold finished, state_solved. simpl. now rewrite <- app_assoc.
  - rewrite direct_pass_eq. unfold direct_adj. rewrite Hdim. simpl.
    unfold finished, with_adjoints, log_app, state_solved. simpl.
    now rewrite app_nil_r, <- app_assoc.
Qed.

(** C4: the subsystem solves are made in the order [N-1, N-2, ..., 0], in
    the direct pass and in every sweep of the Picard loop.  A direct pass
    (lines 73-80), run in any world, assembles and solves exactly the
    subsystems [N-1, ..., 0] in this order; a Picard sweep (lines 107-108),
    run in any world, solves exactly these, in this order; an iteration of
    the Picard loop makes one such sweep when it runs to the end of its
    body, and solves nothing otherwise.  For a whole call: on a fresh cache
    nothing is solved; on a stale cache the direct strategy makes one pass;
    the Picard strategy with [maxiter >= 0] makes [k] sweeps one after the
    other, where [k <= maxiter] is the first iteration that stops, and
    leaves the buffers of [k] sweeps; with a negative [maxiter] it solves
    nothing. *)
Theorem C4_reverse_order (w : World) :
  (forall i, (i < state_dim self)%nat ->
     descending (state_dim self) !! i = Some (state_dim self - 1 - i)%nat) /\
  (direct_pass self w
   = (Val tt,
      with_adjoints
        (log_app w (flat_map (fun k => [EvAssembleSystem k; EvKspSolve k])
                             (descending (state_dim self))))
        (direct_adj self (forward w) (adjoints w))) /\
   solved (flat_map (fun k => [EvAssembleSystem k; EvKspSolve k])
                    (descending (state_dim self)))
   = descending (state_dim self)) /\
  (picard_sweep self w
   = (Val tt,
      with_adjoints
        (log_app w (map EvFenicsSolve (descending (state_dim self))))
        (sweep_adj self (forward w) (adjoints w))) /\
   solved (map EvFenicsSolve (descending (state_dim self)))
   = descending (state_dim self)) /\
  (forall i r, exists evs,
     log (snd (picard_body self i r w)) = log w ++ evs /\
     solved evs
     = match fst (picard_body self i r w) with
       | Val (Continue, _) => descending (state_dim self)
       | _ => []
       end) /\
  (exists evs,
     log (snd (solve self w)) = log w ++ evs /\
     (has_solution w = true -> solved evs = []) /\
     (has_solution w = false -> state_is_picard self = false ->
      solved evs = descending (state_dim self)) /\
     (has_solution w = false -> state_is_picard self = true ->
      maxiter self < 0 -> solved evs = []) /\
     (has_solution w = false -> state_is_picard self = true ->
      0 <= maxiter self ->
      exists k,
        Z.of_nat k <= maxiter self /\
        (forall j, (j < k)%nat ->
           verdict self (state_solve (forward w)) (adjoints w) j = VUnmet /\
           Z.of_nat j <> maxiter self) /\
        (verdict self (state_solve (forward w)) (adjoints w) k <> VUnmet \/
         Z.of_nat k = maxiter self) /\
        solved evs = concat (repeat (descending (state_dim self)) k) /\
        adjoints (snd (solve self w))
        = adj_at self (state_solve (forward w)) (adjoints w) k)).
Proof.
  split; [intros i; apply descending_lookup|].
  split; [split; [apply direct_pass_eq | apply solved_direct]|].
  split; [split; [apply picard_sweep_eq | apply solved_fenics]|].
  split.
  - intros i r. pose proof (picard_body_world self i r w) as Hw.
    destruct (picard_body self i r w) as [[[c r'] | e] w1]; simpl in Hw |- *;
      [destruct c|]; subst w1; eexists; (split; [reflexivity|]);
      rewrite ?solved_app, solved_check_events, ?solved_fenics; reflexivity.
  - destruct (blank_views (picard_verbose self)) as (_ & _ & Hblank & _).
    rewrite solve_eq. destruct (has_solution w) eqn:Hc.
    { exists [EvStateSolve]. split; [reflexivity|].
      split; [reflexivity|]. repeat split; discriminate. }
    rewrite recompute_eq. destruct (state_is_picard self) eqn:Hp; simpl negb; cbv iota.
    + destruct (Z.lt_ge_cases (maxiter self) 0) as [Hneg | Hpos].
      * rewrite (picard_negative self _ Hneg). simpl.
        exists ([EvStateSolve] ++ if picard_verbose self then [EvPrintBlank] else []).
        split; [now rewrite <- app_assoc|].
        split; [discriminate|]. split; [discriminate|].
        split; [| intros _ _ Hge; lia].
        intros _ _ _. now rewrite solved_app, Hblank.
      * destruct (picard_run self (state_solved w) Hpos)
          as (k & evs & Hk & Hun & Hst & Hrun & _ & _ & _ & _ & Hsol & _).
        rewrite Hrun.
        assert (Hparts : forall tl, solved tl = [] ->
                  solved ([EvStateSolve] ++ evs ++ tl)
                  = concat (repeat (descending (state_dim self)) k)).
        { intros tl Htl. rewrite !solved_app, Hsol, Htl. simpl. now rewrite app_nil_r. }
        destruct (outcome_at self (forward (state_solved w))
                    (adjoints (state_solved w)) k) as [x | e]; simpl.
        -- exists ([EvStateSolve] ++ evs ++
                   if picard_verbose self then [EvPrintBlank] else []).
           split; [now rewrite <- !app_assoc|].
           split; [discriminate|]. split; [discriminate|].
           split; [intros _ _ Hlt; lia|].
           intros _ _ _. exists k. rewrite (Hparts _ Hblank). auto.
        -- exists ([EvStateSolve] ++ evs ++ []).
           split; [now rewrite app_nil_r, <- !app_assoc|].
           split; [discriminate|]. split; [discriminate|].
           split; [intros _ _ Hlt; lia|].
           intros _ _ _. exists k. rewrite (Hparts [] eq_refl). auto.
    + rewrite direct_pass_eq. simpl.
      exists ([EvStateSolve] ++
              flat_map (fun k => [EvAssembleSystem k; EvKspSolve k])
                       (descending (state_dim self)) ++
              if picard_verbose self then [EvPrintBlank] else []).
      split; [now rewrite <- !app_assoc|].
      split; [discriminate|].
      split; [| split; discriminate].
      intros _ _. rewrite !solved_app, solved_direct, Hblank. simpl.
      now rewrite app_nil_r.
Qed.

(** The events that the strategy and lines 111-112 add to the log hold no
    state solve, and no printed line when the object is not verbose. *)
Lemma recompute_log (w : World) :
  exists evs,
    log (snd (recompute self w)) = log w ++ evs /\
    state_solves evs = [] /\
    (picard_verbose self = false -> printed evs = []).
Proof.
  rewrite recompute_eq.
  destruct (blank_views (picard_verbose self)) as (_ & Hbs & _ & _).
  destruct (state_is_picard self); simpl negb; cbv iota.
  - destruct (Z.lt_ge_cases (maxiter self) 0) as [Hneg | Hpos].
    + rewrite (picard_negative self _ Hneg). simpl.
      exists (if picard_verbose self then [EvPrintBlank] else []).
      split; [reflexivity|]. split; [exact Hbs|]. now intros ->.
    + destruct (picard_run self w Hpos)
        as (k & evs & _ & _ & _ & Hrun & _ & Hss & _ & Hpr & _ & _).
      rewrite Hrun.
      destruct (outcome_at self (forward w) (adjoints w) k) as [x | e]; simpl.
      * exists (evs ++ if picard_verbose self then [EvPrintBlank] else []).
        split; [now rewrite app_assoc|]. split.
        -- now rewrite state_solves_app, Hss, Hbs.
        -- intros Hv. rewrite printed_app, (Hpr Hv), Hv. reflexivity.
      * exists evs. auto.
  - rewrite direct_pass_eq. simpl.
    destruct (direct_views (descending (state_dim self))) as (_ & Hds & Hdp & _).
    eexists. split; [now rewrite <- app_assoc|]. split.
    + now rewrite state_solves_app, Hds, Hbs.
    + intros Hv. rewrite printed_app, Hdp, Hv. reflexivity.
Qed.

(** X12: every call runs the state solve exactly once, as its first
    event; and a call of an object that is not verbose prints nothing. *)
Theorem solve_state_solve_once (w : World) :
  exists evs,
    log (snd (solve self w)) = log w ++ EvStateSolve :: evs /\
    state_solves evs = [] /\
    (picard_verbose self = false -> printed evs = []).
Proof.
  rewrite solve_eq. destruct (has_solution w).
  - exists []. repeat split.
  - destruct (recompute_log (state_solved w)) as (evs & Hlog & Hss & Hpr).
    exists evs. split; [| split; [exact Hss | exact Hpr]].
    destruct (recompute self (state_solved w)) as [[x | e] w1];
      simpl in *; rewrite Hlog, <- app_assoc; reflexivity.
Qed.

(** *** Verbosity *)

Lemma verdict_with_verbose (v : bool) (fwd : Fwd) (adj : Adj) (k : nat) :
  verdict (with_verbose self v) fwd adj k = verdict self fwd adj k.
Proof. reflexivity. Qed.

Lemma outcome_at_with_verbose (v : bool) (fwd : Fwd) (adj : Adj) (k : nat) :
  outcome_at (with_verbose self v) fwd adj k = outcome_at self fwd adj k.
Proof. reflexivity. Qed.

Lemma picard_trace_with_verbose (v : bool) (fwd : Fwd) (adj : Adj) (k : nat) :
  picard_trace (with_verbose self v) fwd adj k = picard_trace self fwd adj k.
Proof. reflexivity. Qed.

Lemma hushed_run (w : World) (evs : list Event) (a : Adj) :
  hushed (with_adjoints (log_app w evs) a)
  = mkWorld (forward w) a (has_solution w) (number_of_solves w)
            (quiet (log w) ++ quiet evs).
Proof. unfold hushed, with_adjoints, log_app. simpl. now rewrite quiet_app. Qed.

Lemma hushed_finished (s : AdjointProblem) (w : World) :
  hushed (finished s w)
  = mkWorld (forward w) (adjoints w) true (number_of_solves w + 1) (quiet (log w)).
Proof.
  unfold hushed, finished. simpl. rewrite quiet_app.
  destruct (picard_verbose s); simpl; now rewrite app_nil_r.
Qed.

(** The Picard loop of an object and of the same object with another
    verbosity end alike, up to the printed lines. *)
Lemma picard_with_verbose (v : bool) (w : World) :
  fst (picard (with_verbose self v) w) = fst (picard self w) /\
  hushed (snd (picard (with_verbose self v) w)) = hushed (snd (picard self w)).
Proof.
  destruct (Z.lt_ge_cases (maxiter self) 0) as [Hneg | Hpos].
  - rewrite (picard_negative self w Hneg).
    rewrite (picard_negative (with_verbose self v) w Hneg). split; reflexivity.
  - destruct (picard_run self w Hpos)
      as (k & evs & _ & Hun & Hst & Hrun & Hq & _).
    destruct (picard_run (with_verbose self v) w Hpos)
      as (k' & evs' & _ & Hun' & Hst' & Hrun' & Hq' & _).
    assert (Hk : k' = k)
      by exact (first_stop_unique self (forward w) (adjoints w) k' k
                  Hun' Hst' Hun Hst).
    subst k'. rewrite Hrun, Hrun'. simpl. split; [reflexivity|].
    rewrite picard_trace_with_verbose in Hq'.
    change (adj_at (with_verbose self v) (forward w) (adjoints w) k)
      with (adj_at self (forward w) (adjoints w) k).
    now rewrite !hushed_run, Hq, Hq'.
Qed.

(** X13: the verbosity of the object changes nothing but what is printed:
    a call returns or raises the same, and leaves the same forward state,
    buffers, flag, counter and calls to the collaborators. *)
Theorem solve_verbose_independent (v : bool) (w : World) :
  fst (solve (with_verbose self v) w) = fst (solve self w) /\
  hushed (snd (solve (with_verbose self v) w)) = hushed (snd (solve self w)).
Proof.
  rewrite !solve_eq. destruct (has_solution w); [split; reflexivity|].
  rewrite !recompute_eq.
  change (state_is_picard (with_verbose self v)) with (state_is_picard self).
  destruct (state_is_picard self); simpl negb; cbv iota.
  - destruct (picard_with_verbose v (state_solved w)) as [Hfst Hsnd].
    destruct (picard (with_verbose self v) (state_solved w)) as [[x' | e'] w1'];
      destruct (picard self (state_solved w)) as [[x | e] w1];
      simpl in Hfst, Hsnd; try discriminate; simpl.
    + split; [| rewrite !hushed_finished].
      * f_equal. unfold hushed in Hsnd. now injection Hsnd.
      * unfold hushed in Hsnd. injection Hsnd as -> -> _ -> ->. reflexivity.
    + split; [congruence | exact Hsnd].
  - rewrite !direct_pass_eq. simpl. split; [reflexivity|].
    now rewrite !hushed_finished.
Qed.

(** X16: what a call of the Picard strategy returns: the buffers after
    some number [k <= maxiter] of sweeps, whose residual, for the forward
    state that the call has just brought up to date, is exactly zero or
    passes the test of line 101 against the residual of sweep 0. *)
Theorem solve_picard_postcondition (w w' : World) (a : Adj) :
  has_solution w = false ->
  state_is_picard self = true ->
  0 <= maxiter self ->
  solve self w = (Val a, w') ->
  exists k s s0,
    Z.of_nat k <= maxiter self /\
    a = adj_at self (state_solve (forward w)) (adjoints w) k /\
    adjoints w' = a /\
    sum_squares self (state_solve (forward w)) a = Val s /\
    sum_squares self (state_solve (forward w)) (adjoints w) = Val s0 /\
    (eqb s zero = true \/
     ltb (div (sqrt s) (sqrt s0)) (rtol self) || ltb (sqrt s) (atol self) = true).
Proof.
  intros Hstale Hpic Hpos.
  rewrite solve_eq, Hstale, recompute_eq, Hpic. simpl negb. cbv iota.
  destruct (picard_run self (state_solved w) Hpos)
    as (k & evs & Hk & _ & _ & Hrun & _).
  rewrite Hrun. unfold outcome_at, verdict. simpl forward. simpl adjoints.
  destruct (sum_squares self (state_solve (forward w))
              (adj_at self (state_solve (forward w)) (adjoints w) k))
    as [s | e] eqn:Hs; [| discriminate].
  destruct (sum_squares self (state_solve (forward w)) (adjoints w))
    as [s0 | e0] eqn:H0; [| discriminate].
  destruct (eqb s zero) eqn:Hz.
  - intros [= <- <-]. exists k, s, s0. simpl. repeat split; auto.
  - destruct (tolerance_met self (sqrt s) (sqrt s0)) eqn:Ht; [| discriminate].
    intros [= <- <-]. exists k, s, s0. simpl. repeat split; auto.
Qed.

End Calls.

(** ** Calls that may raise or change the object *)

Lemma for_each_ext {Fwd Adj A : Type} (f g : A -> @M Fwd Adj unit) :
  (forall x w, f x w = g x w) ->
  forall xs w, for_each xs f w = for_each xs g w.
Proof.
  intros Hfg xs. induction xs as [| x xs IH]; intros w; [reflexivity|].
  simpl. unfold bind. rewrite Hfg.
  destruct (g x w) as [[[] | e] w1]; [apply IH | reflexivity].
Qed.

Lemma for_fold_ext {Fwd Adj A S : Type} (f g : A -> S -> @M Fwd Adj S) :
  (forall x s w, f x s w = g x s w) ->
  forall xs s w, for_fold xs f s w = for_fold xs g s w.
Proof.
  intros Hfg xs. induction xs as [| x xs IH]; intros s w; [reflexivity|].
  simpl. unfold bind. rewrite Hfg.
  destruct (g x s w) as [[s1 | e] w1]; [apply IH | reflexivity].
Qed.

Lemma for_each_app {Fwd Adj A : Type} (f : A -> @M Fwd Adj unit) (xs ys : list A)
    (w : @World Fwd Adj) :
  for_each (xs ++ ys) f w
  = match for_each xs f w with
    | (Val _, w1) => for_each ys f w1
    | (Exn e, w1) => (Exn e, w1)
    end.
Proof.
  revert w. induction xs as [| x xs IH]; intros w; [reflexivity|].
  simpl. unfold bind. destruct (f x w) as [[[] | e] w1]; [apply IH | reflexivity].
Qed.

Section Effects.

Context {Fwd Adj : Type} `{Backend Fwd Adj}.

Variable self : AdjointProblem.

#[local] Abbreviation World := (@World Fwd Adj).

(** *** Over the calls of a [Backend], the code is the one above *)

Lemma direct_pass_backend_calls (w : World) :
  Effectful.direct_pass (backend_calls self) self w = direct_pass self w.
Proof.
  unfold Effectful.direct_pass, direct_pass. apply for_each_ext.
  intros i w'. unfold direct_step, subsystem, bind. simpl.
  destruct (py_index (state_dim self) (-1 - Z.of_nat i)); reflexivity.
Qed.

Lemma picard_sweep_backend_calls (w : World) :
  Effectful.picard_sweep (backend_calls self) self w = picard_sweep self w.
Proof.
  unfold Effectful.picard_sweep, picard_sweep. apply for_each_ext.
  intros i w'. unfold sweep_step, subsystem, bind. simpl.
  destruct (py_index (state_dim self) (-1 - Z.of_nat i)); reflexivity.
Qed.

Lemma picard_residual_backend_calls (w : World) :
  Effectful.picard_residual (backend_calls self) self w = picard_residual self w.
Proof.
  unfold Effectful.picard_residual, picard_residual. apply for_fold_ext.
  intros j res w'. reflexivity.
Qed.

Lemma picard_body_backend_calls (i : Z) (r : option f64) (w : World) :
  Effectful.picard_body (backend_calls self) self i r w = picard_body self i r w.
Proof.
  unfold Effectful.picard_body, picard_body, bind.
  rewrite picard_residual_backend_calls.
  destruct (picard_residual self w) as [[res | e] w1]; [| reflexivity].
  destruct (eqb res zero); [reflexivity|].
  destruct (if picard_verbose self then _ else _) as [[[] | e] w2]; [| reflexivity].
  destruct (ratio (sqrt res) (reference i (sqrt res) r) w2) as [[rel | e] w3];
    [| reflexivity].
  destruct (ltb rel (rtol self) || ltb (sqrt res) (atol self)); [reflexivity|].
  destruct (i =? maxiter self); [reflexivity|].
  now rewrite picard_sweep_backend_calls.
Qed.

Lemma picard_loop_backend_calls (idx : list Z) (r : option f64) (w : World) :
  Effectful.picard_loop (backend_calls self) self idx r w = picard_loop self idx r w.
Proof.
  revert r w. induction idx as [| i idx IH]; intros r w; [reflexivity|].
  cbn [Effectful.picard_loop picard_loop]. unfold bind.
  rewrite picard_body_backend_calls.
  destruct (picard_body self i r w) as [[[[] r'] | e] w1]; try reflexivity.
  apply IH.
Qed.

Lemma recompute_backend_calls (w : World) :
  Effectful.recompute (backend_calls self) self w = recompute self w.
Proof.
  unfold Effectful.recompute, recompute, Effectful.picard, picard, bind.
  destruct (negb (state_is_picard self)).
  - now rewrite direct_pass_backend_calls.
  - now rewrite picard_loop_backend_calls.
Qed.

Lemma solve_backend_calls (w : World) :
  Effectful.solve (backend_calls self) self w = solve self w.
Proof.
  unfold Effectful.solve, solve, bind.
  change (Effectful.call_state_solve (backend_calls self))
    with (state_problem_solve (Fwd := Fwd)).
  destruct (state_problem_solve w) as [[[] | e] w1]; [| reflexivity].
  unfold gets. destruct (negb (has_solution w1)); [| reflexivity].
  now rewrite recompute_backend_calls.
Qed.

(** C7: the call of the state problem comes first.  Whatever the
    collaborators do: when the state solve raises, [solve] raises the same
    exception in the world that the state solve left, and nothing else has
    run; when it returns, the cache flag that decides between returning the
    buffers and recomputing is the flag as the state solve left it, not
    the flag at the time of the call, and the strategy runs in the world
    that the state solve left.  With collaborators that return, the state
    solve is the first event that a call adds to the log, whatever the
    flag, and the forward state after the call is the one it produced. *)
Theorem C7_state_solve_first (c : @Effectful.Collaborators Fwd Adj) (w : World) :
  Effectful.solve c self w
  = match Effectful.call_state_solve c w with
    | (Exn e, w1) => (Exn e, w1)
    | (Val _, w1) =>
        if has_solution w1 then (Val (adjoints w1), w1)
        else match Effectful.recompute c self w1 with
             | (Val _, w2) => (Val (adjoints w2), w2)
             | (Exn e, w2) => (Exn e, w2)
             end
    end /\
  Effectful.solve (backend_calls self) self w = solve self w /\
  (exists evs, log (snd (solve self w)) = log w ++ EvStateSolve :: evs) /\
  forward (snd (solve self w)) = state_solve (forward w).
Proof.
  split; [| split; [apply solve_backend_calls | split]].
  - unfold Effectful.solve, bind, gets.
    destruct (Effectful.call_state_solve c w) as [[[] | e] w1]; [| reflexivity].
    destruct (has_solution w1); simpl; [reflexivity|].
    destruct (Effectful.recompute c self w1) as [[[] | e] w2]; reflexivity.
  - rewrite solve_eq. destruct (has_solution w).
    + exists []. reflexivity.
    + rewrite recompute_eq.
      destruct (strategy_world self (state_solved w)) as (evs & b & m & Hw & _ & _).
      destruct (if negb (state_is_picard self) then _ else _) as [[? | ?] w1];
        simpl in Hw; subst w1; simpl;
        eexists; rewrite <- !app_assoc; reflexivity.
  - rewrite solve_eq. destruct (has_solution w); [reflexivity|].
    rewrite recompute_eq.
    destruct (strategy_world self (state_solved w)) as (evs & b & m & Hw & _ & _).
    destruct (if negb (state_is_picard self) then _ else _) as [[? | ?] w1];
      simpl in Hw; subst w1; reflexivity.
Qed.

End Effects.

(** *** What a call raises *)

Section Raised.

Context {Fwd Adj : Type}.

Variable c : @Effectful.Collaborators Fwd Adj.

Variable self : AdjointProblem.

(** The exceptions that the collaborators raise. *)
Variable P : PyExn -> Prop.

Hypothesis state_solve_raises :
  forall w e w', Effectful.call_state_solve c w = (Exn e, w') -> P e.
Hypothesis direct_solve_raises :
  forall idx w e w', Effectful.call_direct_solve c idx w = (Exn e, w') -> P e.
Hypothesis residual_norm_raises :
  forall j w e w', Effectful.call_residual_norm c j w = (Exn e, w') -> P e.
Hypothesis fenics_solve_raises :
  forall idx w e w', Effectful.call_fenics_solve c idx w = (Exn e, w') -> P e.

#[local] Abbreviation World := (@World Fwd Adj).

(** What [solve] raises: an exception of a collaborator, or one of the
    two of its own. *)
#[local] Abbreviation raised e :=
  (P e \/ e = OverflowError \/
   e = SystemExit "Failed to solve the Picard Iteration"%string).

Lemma for_each_raises {A : Type} (f : A -> @M Fwd Adj unit) (xs : list A)
    (w w' : World) (e : PyExn) :
  (forall x w0 e0 w1, f x w0 = (Exn e0, w1) -> P e0) ->
  for_each xs f w = (Exn e, w') -> P e.
Proof.
  intros Hf. revert w. induction xs as [| x xs IH]; intros w; [discriminate|].
  simpl. unfold bind. destruct (f x w) as [[[] | e0] w1] eqn:Hx.
  - apply IH.
  - intros [= <- <-]. exact (Hf x w e0 w1 Hx).
Qed.

Lemma picard_residual_raises (js : list nat) (res : f64) (w w' : World) (e : PyExn) :
  for_fold js (Effectful.residual_step c) res w = (Exn e, w') -> raised e.
Proof.
  revert res w. induction js as [| j js IH]; intros res w; [discriminate|].
  simpl. unfold bind at 1. unfold Effectful.residual_step at 1. unfold bind, lift.
  destruct (Effectful.call_residual_norm c j w) as [[norm | e0] w1] eqn:Hn.
  - destruct (py_pow2 (Effectful.call_libm_pow2 c) norm) as [sq | e1] eqn:Hsq.
    + apply IH.
    + intros [= <- <-]. right. left. exact (py_pow2_exn _ _ _ Hsq).
  - intros [= <- <-]. left. exact (residual_norm_raises j w e0 w1 Hn).
Qed.

(** An iteration entered at index 0, or with the reference bound, raises
    no [UnboundLocalError], and leaves the reference bound when it goes
    on. *)
Lemma picard_body_raises (i : Z) (r : option f64) (w : World) :
  i = 0 \/ r <> None ->
  match Effectful.picard_body c self i r w with
  | (Exn e, _) => raised e
  | (Val (Continue, r'), _) => r' <> None
  | _ => True
  end.
Proof.
  intros Hbound. unfold Effectful.picard_body, bind.
  destruct (Effectful.picard_residual c self w) as [[res | e0] w1] eqn:Hres.
  2: { exact (picard_residual_raises _ _ _ _ _ Hres). }
  destruct (eqb res zero); [exact I|].
  destruct (reference i (sqrt res) r) as [r0 |] eqn:Href.
  2: { exfalso. unfold reference in Href.
       destruct Hbound as [-> | Hr]; [discriminate|].
       destruct (i =? 0); [discriminate | contradiction]. }
  destruct (picard_verbose self); simpl;
    (destruct (ltb (div (sqrt res) r0) (rtol self) || ltb (sqrt res) (atol self));
     [exact I|]);
    (destruct (i =? maxiter self); [right; right; reflexivity|]);
    (destruct (Effectful.picard_sweep c self _) as [[[] | e1] w3] eqn:Hsw;
     [ discriminate
     | left; exact (for_each_raises _ _ _ _ _
                      (fun x => fenics_solve_raises (-1 - Z.of_nat x)) Hsw) ]).
Qed.

Lemma picard_loop_raises (k n : nat) (r : option f64) (w w' : World) (e : PyExn) :
  k = O \/ r <> None ->
  Effectful.picard_loop c self (map Z.of_nat (seq k n)) r w = (Exn e, w') ->
  raised e.
Proof.
  revert k r w. induction n as [| n IH]; intros k r w Hbound; [discriminate|].
  cbn [seq map Effectful.picard_loop]. unfold bind.
  assert (Hb : Z.of_nat k = 0 \/ r <> None) by (destruct Hbound; [left; lia | now right]).
  pose proof (picard_body_raises (Z.of_nat k) r w Hb) as Hbody.
  destruct (Effectful.picard_body c self (Z.of_nat k) r w) as [[[[] r'] | e0] w1];
    try discriminate.
  - apply IH. now right.
  - now intros [= <- <-].
Qed.

(** X9: [solve] raises what its collaborators raise and, of its own,
    nothing but the [OverflowError] of a squared residual norm and the
    [SystemExit] of line 105: the local [res_0] is never read unbound. *)
Theorem solve_exceptions (w w' : World) (e : PyExn) :
  Effectful.solve c self w = (Exn e, w') ->
  P e \/ e = OverflowError \/
  e = SystemExit "Failed to solve the Picard Iteration".
Proof.
  unfold Effectful.solve, bind, gets.
  destruct (Effectful.call_state_solve c w) as [[[] | e0] w1] eqn:Hst.
  2: { intros [= <- <-]. left. exact (state_solve_raises w e0 w1 Hst). }
  destruct (has_solution w1); simpl; [discriminate|].
  unfold Effectful.recompute, bind.
  destruct (state_is_picard self); simpl.
  - destruct (Effectful.picard c self w1) as [[x | e1] w2] eqn:Hp.
    + destruct (picard_verbose self); discriminate.
    + intros [= <- <-]. unfold Effectful.picard, py_range in Hp.
      exact (picard_loop_raises O _ None w1 w2 e1 (or_introl eq_refl) Hp).
  - destruct (Effectful.direct_pass c self w1) as [[[] | e1] w2] eqn:Hd.
    + destruct (picard_verbose self); discriminate.
    + intros [= <- <-]. left.
      exact (for_each_raises _ _ _ _ _
               (fun x => direct_solve_raises (-1 - Z.of_nat x)) Hd).
Qed.

(** X20: a failure of the direct strategy goes through [solve] as it is.
    When the state solve returns on a stale cache, the first [n] subsystem
    solves return and the next one raises, the call raises the same
    exception in the world that the failed solve left: no later subsystem
    is solved, and the flag and the counter are not set. *)
Theorem solve_direct_failure (w w1 w2 w3 : World) (n : nat) (e : PyExn) :
  state_is_picard self = false ->
  Effectful.call_state_solve c w = (Val tt, w1) ->
  has_solution w1 = false ->
  (n < state_dim self)%nat ->
  for_each (seq 0 n) (fun i => Effectful.call_direct_solve c (-1 - Z.of_nat i)) w1
  = (Val tt, w2) ->
  Effectful.call_direct_solve c (-1 - Z.of_nat n) w2 = (Exn e, w3) ->
  Effectful.solve c self w = (Exn e, w3).
Proof.
  intros Hdirect Hst Hstale Hn Hfirst Hfail.
  unfold Effectful.solve, bind, gets. rewrite Hst, Hstale. simpl.
  unfold Effectful.recompute, bind. rewrite Hdirect. simpl.
  unfold Effectful.direct_pass.
  replace (state_dim self) with (n + S (state_dim self - S n))%nat by lia.
  rewrite seq_app, for_each_app, Hfirst. simpl. unfold bind. now rewrite Hfail.
Qed.

End Raised.

(** Three subsystems solved directly, and two coupled subsystems whose
    loop leaves at sweep 2. *)
Lemma C4_witness :
  solved (log (snd (solve (H := synthetic halving) uncoupled fresh_start)))
  = [2; 1; 0]%nat /\
  solved (log (snd (solve (H := synthetic halving) coupled_loose fresh_start)))
  = [1; 0; 1; 0]%nat.
Proof.
  split.
  - destruct (proj2 (proj2 (proj2 (proj2
                (C4_reverse_order (H := synthetic halving) uncoupled fresh_start)))))
      as (evs & Hlog & _ & Hdirect & _).
    rewrite Hlog. simpl. apply Hdirect; reflexivity.
  - destruct (proj2 (proj2 (proj2 (proj2
                (C4_reverse_order (H := synthetic halving) coupled_loose fresh_start)))))
      as (evs & Hlog & _ & _ & _ & Hpicard).
    rewrite Hlog. simpl.
    destruct Hpicard as (k & _ & Hun & Hst & Hsol & _);
      [reflexivity | reflexivity | vm_compute; discriminate |].
    rewrite Hsol.
    destruct k as [| [| [| k]]].
    + exfalso. destruct Hst as [Hst | Hst]; [now apply Hst | discriminate].
    + exfalso. destruct Hst as [Hst | Hst]; [now apply Hst | discriminate].
    + reflexivity.
    + exfalso. destruct (Hun 2%nat ltac:(lia)) as [Hv _]. discriminate.
Defined.

(** On a cache that is fresh at the time of the call, a state solve that
    clears the flag makes the call recompute: two sweeps are made and the
    counter grows; a state solve that fails ends the call at once. *)
Lemma C7_witness :
  has_solution marked_fresh = true /\
  Effectful.solve (invalidating halving coupled_loose) coupled_loose marked_fresh
  = (Val 2%nat,
     mkWorld 5%nat 2%nat true 4
       [EvStateSolve;
        EvAssembleResidual 0; EvAssembleResidual 1;
        EvReport 0 (lit 1%float) (lit 1%float);
        EvFenicsSolve 1; EvFenicsSolve 0;
        EvAssembleResidual 0; EvAssembleResidual 1;
        EvReport 1 (lit 0.5%float) (lit 0.5%float);
        EvFenicsSolve 1; EvFenicsSolve 0;
        EvAssembleResidual 0; EvAssembleResidual 1;
        EvReport 2 (lit 0.125%float) (lit 0.125%float);
        EvPrintBlank]) /\
  Effectful.solve (failing_state halving coupled_loose) coupled_loose fresh_start
  = (Exn (RuntimeError "state solve failed"),
     mkWorld 0%nat 0%nat false 0 [EvStateSolve]).
Proof.
  split; [reflexivity|]. split.
  - rewrite (proj1 (C7_state_solve_first (H := synthetic halving) coupled_loose
                      (invalidating halving coupled_loose) marked_fresh)).
    vm_compute. reflexivity.
  - rewrite (proj1 (C7_state_solve_first (H := synthetic halving) coupled_loose
                      (failing_state halving coupled_loose) fresh_start)).
    vm_compute. reflexivity.
Defined.

(** ** The tolerance test at sweep 0, and residuals that are not numbers *)

(** A finite number divided by itself is 1. *)
Lemma div_self_finite (s : bool) (m : positive) (e : Z) :
  div (S754_finite s m e) (S754_finite s m e) = one.
Proof.
  unfold div, SFdiv, SFdiv_core_binary. rewrite xorb_nilpotent.
  replace (Zdigits2 (Z.pos m) + e - (Zdigits2 (Z.pos m) + e)) with 0 by lia.
  rewrite Z.sub_diag.
  change (Z.min (fexp prec emax 0) 0) with (-53).
  change (0 - -53) with 53. cbv iota.
  assert (Hq : Z.div_eucl (Z.shiftl (Z.pos m) 53) (Z.pos m) = (2 ^ 53, 0)).
  { rewrite Z.shiftl_mul_pow2 by lia.
    pose proof (Z.div_mul (2 ^ 53) (Z.pos m) ltac:(lia)) as Hd.
    pose proof (Z.mod_mul (2 ^ 53) (Z.pos m) ltac:(lia)) as Hm.
    rewrite (Z.mul_comm (2 ^ 53)) in Hd, Hm.
    unfold Z.div, Z.modulo in Hd, Hm.
    destruct (Z.div_eucl (Z.pos m * 2 ^ 53) (Z.pos m)) as [q r].
    now subst. }
  rewrite Hq.
  assert (Hl : new_location (Z.pos m) 0 = loc_Exact).
  { unfold new_location, new_location_even, new_location_odd.
    now destruct (Z.even (Z.pos m)). }
  rewrite Hl. vm_compute. reflexivity.
Qed.

(** Any float divided by itself is 1 or NaN. *)
Lemma ltb_div_self (x y : f64) :
  ltb (div x x) y = finite_nonzero x && ltb one y.
Proof.
  destruct x as [[] | [] | | s m e]; try reflexivity.
  now rewrite div_self_finite.
Qed.

Lemma is_nan_add (x y : f64) :
  is_nan (add x y) = false -> is_nan x = false /\ is_nan y = false.
Proof.
  destruct x as [[] | [] | | sx mx ex]; destruct y as [[] | [] | | sy my ey];
    simpl; auto; discriminate.
Qed.

Lemma tested_is_a_number (x r0 rt at_ : f64) :
  ltb (div x r0) rt || ltb x at_ = true -> is_nan x = false.
Proof. destruct x; simpl; auto. Qed.

Lemma is_nan_sqrt (x : f64) : is_nan (sqrt x) = false -> is_nan x = false.
Proof. destruct x; simpl; auto. Qed.

Lemma eqb_zero_number (x : f64) : eqb x zero = true -> is_nan x = false.
Proof. destruct x; simpl; auto. Qed.

Section Numbers.

Context {Fwd Adj : Type} `{Backend Fwd Adj}.

Variable self : AdjointProblem.

#[local] Abbreviation World := (@World Fwd Adj).

(** A sum of squares that is a number comes from norms that are numbers. *)
Lemma sum_squares_from_number (js : list nat) (fwd : Fwd) (adj : Adj)
    (res s : f64) :
  sum_squares_from js fwd adj res = Val s ->
  is_nan s = false ->
  Forall (fun j => is_nan (residual_norm j fwd adj) = false) js.
Proof.
  revert res. induction js as [| j js IH]; intros res; [constructor|].
  cbn [sum_squares_from].
  destruct (py_pow2 libm_pow2 (residual_norm j fwd adj)) as [sq |] eqn:Hsq; [| discriminate].
  intros Hs Hnum. constructor; [| now apply (IH (add res sq))].
  assert (Hacc : is_nan (add res sq) = false).
  { clear IH Hsq. revert Hs Hnum. generalize (add res sq).
    induction js as [| j' js IH']; intros acc; cbn [sum_squares_from].
    - now intros [= ->].
    - destruct (py_pow2 libm_pow2 (residual_norm j' fwd adj)) as [sq' |]; [| discriminate].
      intros Hs Hnum. apply IH' in Hs; [| exact Hnum].
      now apply is_nan_add in Hs. }
  apply is_nan_add in Hacc as [_ Hn].
  exact (py_pow2_number _ _ _ Hsq Hn).
Qed.

(** X14: at sweep 0 the reference is the residual itself, so that the
    ratio is 1 when the residual is finite and NaN otherwise: the loop
    leaves by the tolerance test at sweep 0 exactly when its residual is
    not zero and either is finite with 1 < rtol, or is below atol. *)
Theorem picard_tolerance_exit_at_start (w : World) :
  fst (picard self w) = Val (ExitTol 0) <->
  0 <= maxiter self /\
  exists s,
    sum_squares self (forward w) (adjoints w) = Val s /\
    eqb s zero = false /\
    (finite_nonzero (sqrt s) && ltb one (rtol self)) || ltb (sqrt s) (atol self)
    = true.
Proof.
  split.
  - intros Hex.
    destruct (picard_outcome self w) as [[_ Hx] | (k & Hk & _ & _ & Hout)];
      [congruence|].
    rewrite Hex in Hout. unfold outcome_at in Hout.
    destruct (verdict self (forward w) (adjoints w) k) as [| | | e] eqn:Hv;
      try discriminate.
    injection Hout as Hkk. destruct k as [| k]; [| lia].
    split; [lia|]. unfold verdict in Hv. simpl adj_at in Hv.
    destruct (sum_squares self (forward w) (adjoints w)) as [s |]; [| discriminate].
    exists s. split; [reflexivity|].
    destruct (eqb s zero); [discriminate|]. split; [reflexivity|].
    unfold tolerance_met in Hv. rewrite ltb_div_self in Hv.
    destruct (finite_nonzero (sqrt s) && ltb one (rtol self) || ltb (sqrt s) (atol self));
      [reflexivity | discriminate].
  - intros (Hpos & s & Hs & Hz & Ht).
    assert (Hv : verdict self (forward w) (adjoints w) 0 = VMet).
    { unfold verdict. simpl adj_at. rewrite Hs, Hz.
      unfold tolerance_met. now rewrite ltb_div_self, Ht. }
    rewrite (picard_outcome_at self w O); [| simpl; lia | intros j Hj; lia |].
    + unfold outcome_at. now rewrite Hv.
    + left. congruence.
Qed.

(** X15: the loop never takes a residual that is not a number for
    convergence: when it leaves by either [break] at sweep [k], no
    residual norm of sweep [k] is NaN. *)
Theorem picard_converged_residual_is_number (w : World) (k : nat) :
  fst (picard self w) = Val (ExitZero (Z.of_nat k)) \/
  fst (picard self w) = Val (ExitTol (Z.of_nat k)) ->
  Forall (fun j => is_nan (residual_norm j (forward w)
                             (adj_at self (forward w) (adjoints w) k)) = false)
         (seq 0 (state_dim self)).
Proof.
  intros Hex.
  destruct (picard_outcome self w) as [[_ Hx] | (k' & _ & _ & _ & Hout)].
  { destruct Hex; congruence. }
  assert (Hk : k' = k).
  { apply Nat2Z.inj. symmetry.
    apply (outcome_at_exit self (forward w) (adjoints w)).
    destruct Hex as [Hex | Hex]; rewrite Hex in Hout; [left | right];
      now symmetry. }
  subst k'. unfold outcome_at in Hout.
  assert (Hv : verdict self (forward w) (adjoints w) k = VZero \/
               verdict self (forward w) (adjoints w) k = VMet).
  { destruct (verdict self (forward w) (adjoints w) k) as [| | | e] eqn:Hv; auto.
    - destruct Hex; congruence.
    - destruct Hex; congruence. }
  unfold verdict in Hv.
  destruct (sum_squares self (forward w) (adj_at self (forward w) (adjoints w) k))
    as [s |] eqn:Hs; [| destruct Hv; discriminate].
  apply (sum_squares_from_number _ _ _ zero s Hs).
  destruct (sum_squares self (forward w) (adjoints w)) as [s0 |];
    [| destruct Hv; discriminate].
  destruct (eqb s zero) eqn:Hz; [now apply eqb_zero_number|].
  destruct (tolerance_met self (sqrt s) (sqrt s0)) eqn:Ht;
    [| destruct Hv; discriminate].
  apply is_nan_sqrt. now apply (tested_is_a_number _ _ _ _ Ht).
Qed.

End Numbers.

(** ** More about [__init__] *)

(** X17: [__init__] raises nothing but the [ValueError] of a text that
    does not convert and what the interpolation of one of its four entries
    raises; it returns exactly when each of the four entries is absent or
    is interpolated, without an exception, to a text that converts. *)
Theorem init_returns_iff (parse_float : string -> option f64)
    (parse_int : string -> option Z) (form_handler : FormHandler) :
  (forall e, init parse_float parse_int form_handler = Exn e ->
     e = ValueError \/
     exists opt,
       In opt ["picard_rtol"; "picard_atol"; "picard_iter"; "picard_verbose"]%string /\
       Config.text (fh_config form_handler) "StateEquation" opt = Some (Exn e)) /\
  ((exists ap, init parse_float parse_int form_handler = Val ap) <->
   converts parse_float
     (Config.text (fh_config form_handler) "StateEquation" "picard_rtol") /\
   converts parse_float
     (Config.text (fh_config form_handler) "StateEquation" "picard_atol") /\
   converts parse_int
     (Config.text (fh_config form_handler) "StateEquation" "picard_iter") /\
   converts Config.convert_to_boolean
     (Config.text (fh_config form_handler) "StateEquation" "picard_verbose")).
Proof.
  rewrite init_getters.
  unfold Config.getfloat, Config.getint, Config.getboolean.
  rewrite !get_conv_text. unfold converts.
  destruct (Config.text _ "StateEquation" "picard_rtol") as [[t_r | e_r] |] eqn:Hr;
    [destruct (parse_float t_r) | |];
    (destruct (Config.text _ "StateEquation" "picard_atol") as [[t_a | e_a] |] eqn:Ha;
     [destruct (parse_float t_a) | |]);
    (destruct (Config.text _ "StateEquation" "picard_iter") as [[t_i | e_i] |] eqn:Hi;
     [destruct (parse_int t_i) | |]);
    (destruct (Config.text _ "StateEquation" "picard_verbose") as [[t_v | e_v] |] eqn:Hv;
     [destruct (Config.convert_to_boolean t_v) | |]);
    (split;
     [ intros e He; try discriminate; injection He as <-;
       first [ now left
             | right; exists "picard_rtol"%string; split; [simpl; tauto | assumption]
             | right; exists "picard_atol"%string; split; [simpl; tauto | assumption]
             | right; exists "picard_iter"%string; split; [simpl; tauto | assumption]
             | right; exists "picard_verbose"%string; split; [simpl; tauto | assumption] ]
     | split;
       [ intros [ap Hap]; try discriminate; repeat split; eauto
       | intros (H1 & H2 & H3 & H4);
         try contradiction;
         repeat match goal with
                | Hx : exists _, None = Some _ |- _ => destruct Hx; discriminate
                end;
         eexists; reflexivity ] ]).
Qed.

(** X18: when [__init__] returns, the object has the form handler's
    [state_dim] and [state_is_picard], and each setting is the converted
    interpolated text of its entry, or its fallback when the entry is
    absent. *)
Theorem init_configured (parse_float : string -> option f64)
    (parse_int : string -> option Z) (form_handler : FormHandler)
    (ap : AdjointProblem) :
  init parse_float parse_int form_handler = Val ap ->
  state_dim ap = fh_state_dim form_handler /\
  state_is_picard ap = fh_state_is_picard form_handler /\
  configured parse_float
    (Config.text (fh_config form_handler) "StateEquation" "picard_rtol")
    default_rtol (rtol ap) /\
  configured parse_float
    (Config.text (fh_config form_handler) "StateEquation" "picard_atol")
    default_atol (atol ap) /\
  configured parse_int
    (Config.text (fh_config form_handler) "StateEquation" "picard_iter")
    default_maxiter (maxiter ap) /\
  configured Config.convert_to_boolean
    (Config.text (fh_config form_handler) "StateEquation" "picard_verbose")
    default_verbose (picard_verbose ap).
Proof.
  rewrite init_getters.
  unfold Config.getfloat, Config.getint, Config.getboolean.
  rewrite !get_conv_text. unfold configured.
  destruct (Config.text _ "StateEquation" "picard_rtol") as [[t_r | e_r] |];
    [destruct (parse_float t_r); [| discriminate] | discriminate |];
    (destruct (Config.text _ "StateEquation" "picard_atol") as [[t_a | e_a] |];
     [destruct (parse_float t_a); [| discriminate] | discriminate |]);
    (destruct (Config.text _ "StateEquation" "picard_iter") as [[t_i | e_i] |];
     [destruct (parse_int t_i); [| discriminate] | discriminate |]);
    (destruct (Config.text _ "StateEquation" "picard_verbose") as [[t_v | e_v] |];
     [destruct (Config.convert_to_boolean t_v); [| discriminate] | discriminate |]);
    intros [= <-]; simpl; repeat split.
Qed.

(** ** The further properties on concrete runs *)

Lemma picard_sweeps_bounded_witness :
  exists k evs,
    Z.of_nat k <= 50 /\
    snd (picard (H := synthetic halving) coupled_loose fresh_start)
    = with_adjoints (log_app fresh_start evs)
        (adj_at (H := synthetic halving) coupled_loose 0%nat 0%nat k) /\
    solved evs = concat (repeat (descending 2) k) /\
    (forall i,
       fst (picard (H := synthetic halving) coupled_loose fresh_start)
       = Val (ExitZero i) \/
       fst (picard (H := synthetic halving) coupled_loose fresh_start)
       = Val (ExitTol i) -> i = Z.of_nat k) /\
    (forall msg,
       fst (picard (H := synthetic halving) coupled_loose fresh_start)
       = Exn (SystemExit msg) -> Z.of_nat k = 50).
Proof.
  apply (picard_sweeps_bounded (H := synthetic halving) coupled_loose fresh_start).
  vm_compute. discriminate.
Defined.

Lemma picard_calls_in_order_witness :
  exists k evs,
    Z.of_nat k <= 50 /\
    log (snd (picard (H := synthetic halving) coupled_loose fresh_start)) = [] ++ evs /\
    quiet evs
    = concat (repeat (map EvAssembleResidual (seq 0 2) ++
                      map EvFenicsSolve (descending 2)) k) ++
      map EvAssembleResidual (seq 0 2) /\
    assembled evs = concat (repeat (seq 0 2) (S k)).
Proof.
  apply (picard_calls_in_order (H := synthetic halving) coupled_loose fresh_start).
  - vm_compute. discriminate.
  - vm_compute. discriminate.
Defined.

Lemma picard_reports_witness :
  exists evs,
    log (snd (picard (H := synthetic halving) coupled_loose fresh_start)) = [] ++ evs /\
    (picard_verbose coupled_loose = false -> printed evs = []) /\
    (picard_verbose coupled_loose = true ->
     match fst (picard (H := synthetic halving) coupled_loose fresh_start) with
     | Val (ExitTol i) => reported evs = py_range (i + 1)
     | Val (ExitZero i) => reported evs = py_range i
     | Exn (SystemExit _) => reported evs = py_range (50 + 1)
     | _ => exists k, Z.of_nat k <= 50 /\ reported evs = py_range (Z.of_nat k)
     end).
Proof.
  apply (picard_reports (H := synthetic halving) coupled_loose fresh_start).
  vm_compute. discriminate.
Defined.

Lemma solve_direct_witness :
  solve (H := synthetic halving) uncoupled fresh_start
  = (Val 321%nat,
     mkWorld 1%nat 321%nat true 1
       [EvStateSolve; EvAssembleSystem 2; EvKspSolve 2; EvAssembleSystem 1;
        EvKspSolve 1; EvAssembleSystem 0; EvKspSolve 0]).
Proof.
  apply (solve_direct (H := synthetic halving) uncoupled fresh_start); reflexivity.
Defined.

(** Three subsystems of which the second to be solved fails to factorise:
    the call raises the error of the solver, after the solve of
    subsystem 2 only, and with the flag and the counter as they were. *)
Lemma solve_exceptions_witness :
  exists e w',
    Effectful.solve (failing_factorisation (-2) halving uncoupled) uncoupled fresh_start
    = (Exn e, w') /\
    ((e = RuntimeError "factorisation failed" \/ e = IndexError) \/
     e = OverflowError \/
     e = SystemExit "Failed to solve the Picard Iteration").
Proof.
  eexists. eexists. split; [vm_compute; reflexivity|].
  apply (solve_exceptions (failing_factorisation (-2) halving uncoupled) uncoupled
           (fun e => e = RuntimeError "factorisation failed" \/ e = IndexError))
    with (w := fresh_start)
         (w' := mkWorld 1%nat 3%nat false 0
                  [EvStateSolve; EvAssembleSystem 2; EvKspSolve 2]).
  - intros w e w'. discriminate.
  - intros idx w e w'. simpl.
    destruct (idx =? -2); [intros [= <- _]; now left|].
    destruct (py_index 3 idx); [discriminate | intros [= <- _]; now right].
  - intros j w e w'. discriminate.
  - intros idx w e w'. simpl.
    destruct (py_index 3 idx); [discriminate | intros [= <- _]; now right].
  - vm_compute. reflexivity.
Defined.

Lemma solve_direct_failure_witness :
  Effectful.solve (failing_factorisation (-2) halving uncoupled) uncoupled fresh_start
  = (Exn (RuntimeError "factorisation failed"),
     mkWorld 1%nat 3%nat false 0
       [EvStateSolve; EvAssembleSystem 2; EvKspSolve 2]).
Proof.
  apply (solve_direct_failure (failing_factorisation (-2) halving uncoupled) uncoupled
           fresh_start
           (mkWorld 1%nat 0%nat false 0 [EvStateSolve])
           (mkWorld 1%nat 3%nat false 0
              [EvStateSolve; EvAssembleSystem 2; EvKspSolve 2])
           _ 1%nat).
  - reflexivity.
  - reflexivity.
  - reflexivity.
  - vm_compute. lia.
  - vm_compute. reflexivity.
  - vm_compute. reflexivity.
Defined.

Lemma solve_negative_maxiter_witness :
  solve (H := synthetic halving) negative_sweeps fresh_start
  = (Val 0%nat, mkWorld 1%nat 0%nat true 1 [EvStateSolve]).
Proof.
  apply (proj2 (solve_negative_maxiter (H := synthetic halving) negative_sweeps
                  fresh_start)).
  - vm_compute. reflexivity.
  - reflexivity.
  - reflexivity.
Defined.

Lemma solve_no_subsystems_witness :
  solve (H := synthetic halving) no_subsystems fresh_start
  = (Val 0%nat, mkWorld 1%nat 0%nat true 1 [EvStateSolve; EvPrintBlank]).
Proof.
  apply (solve_no_subsystems (H := synthetic halving) no_subsystems fresh_start);
    reflexivity.
Defined.

Lemma picard_converged_residual_is_number_witness :
  Forall (fun j => is_nan (residual_norm (Backend := synthetic halving) j 0%nat
                             (adj_at (H := synthetic halving) coupled_loose
                                0%nat 0%nat 2)) = false)
         (seq 0 2).
Proof.
  apply (picard_converged_residual_is_number (H := synthetic halving) coupled_loose
           fresh_start 2).
  right. vm_compute. reflexivity.
Defined.

Lemma solve_picard_postcondition_witness :
  exists k s s0,
    Z.of_nat k <= 50 /\
    2%nat = adj_at (H := synthetic halving) coupled_loose 1%nat 0%nat k /\
    adjoints (snd (solve (H := synthetic halving) coupled_loose fresh_start)) = 2%nat /\
    sum_squares (H := synthetic halving) coupled_loose 1%nat 2%nat = Val s /\
    sum_squares (H := synthetic halving) coupled_loose 1%nat 0%nat = Val s0 /\
    (eqb s zero = true \/
     ltb (div (sqrt s) (sqrt s0)) (rtol coupled_loose)
     || ltb (sqrt s) (atol coupled_loose) = true).
Proof.
  apply (solve_picard_postcondition (H := synthetic halving) coupled_loose
           fresh_start
           (snd (solve (H := synthetic halving) coupled_loose fresh_start)) 2%nat).
  - reflexivity.
  - reflexivity.
  - vm_compute. discriminate.
  - vm_compute. reflexivity.
Defined.

(** The reference [%(tol)s] is resolved before the conversion. *)
Lemma init_configured_witness :
  state_dim (problem 2 true (lit 0.25%float) default_atol 50 false) = 2%nat /\
  state_is_picard (problem 2 true (lit 0.25%float) default_atol 50 false) = true /\
  configured demo_float
    (Config.text (fh_config interpolated_handler) "StateEquation" "picard_rtol")
    default_rtol (lit 0.25%float) /\
  configured demo_float
    (Config.text (fh_config interpolated_handler) "StateEquation" "picard_atol")
    default_atol default_atol /\
  configured demo_int
    (Config.text (fh_config interpolated_handler) "StateEquation" "picard_iter")
    default_maxiter 50 /\
  configured Config.convert_to_boolean
    (Config.text (fh_config interpolated_handler) "StateEquation" "picard_verbose")
    default_verbose false.
Proof.
  apply (init_configured demo_float demo_int interpolated_handler
           (problem 2 true (lit 0.25%float) default_atol 50 false)).
  vm_compute. reflexivity.
Defined.

(** A text that converts and a text whose reference is resolved make
    [__init__] return; a stray percent sign, and a reference read by a
    parser without interpolation, do not. *)
Lemma init_returns_iff_witness :
  (exists ap, init demo_float demo_int configured_handler = Val ap) /\
  (exists ap, init demo_float demo_int interpolated_handler = Val ap) /\
  ~ (exists ap, init demo_float demo_int percent_handler = Val ap) /\
  ~ (exists ap, init demo_float demo_int raw_reference_handler = Val ap) /\
  init demo_float demo_int percent_handler = Exn InterpolationSyntaxError /\
  init demo_float demo_int raw_reference_handler = Exn ValueError /\
  init demo_float demo_int misconfigured_handler = Exn ValueError.
Proof.
  split; [| split; [| split; [| split]]].
  - apply (proj2 (proj2 (init_returns_iff demo_float demo_int configured_handler))).
    vm_compute. repeat split; eexists; reflexivity.
  - apply (proj2 (proj2 (init_returns_iff demo_float demo_int interpolated_handler))).
    vm_compute. repeat split; eexists; reflexivity.
  - intros Hret.
    apply (proj1 (proj2 (init_returns_iff demo_float demo_int percent_handler))) in Hret.
    vm_compute in Hret. tauto.
  - intros Hret.
    apply (proj1 (proj2 (init_returns_iff demo_float demo_int raw_reference_handler)))
      in Hret.
    vm_compute in Hret. destruct Hret as [[v Hv] _]. discriminate.
  - vm_compute. repeat split; reflexivity.
Defined.

(** ** The last bit of the squares *)

(** X21: the outcome of the loop follows the squares of the C library to
    the last bit.  With residual norms 41.69 and 96.03 and the absolute
    tolerance 104.68914461394745, the measured squares give a residual
    equal to the tolerance, so the loop fails at [maxiter = 0], where
    rounded products would have it leave by the tolerance test; with the
    norms 140.14 and 141.73 and the tolerance 199.31535941818433 it is
    the other way round. *)
Theorem picard_follows_libm :
  (sum_squares (H := measured [lit 41.69%float; lit 96.03%float] measured_pow2)
     (single_check (lit 104.68914461394745%float)) 0%nat 0%nat
   = Val (lit 0x1.567e89374bc6bp+13%float) /\
   sqrt (lit 0x1.567e89374bc6bp+13%float) = lit 104.68914461394745%float /\
   fst (picard (H := measured [lit 41.69%float; lit 96.03%float] measured_pow2)
          (single_check (lit 104.68914461394745%float)) fresh_start)
   = Exn (SystemExit "Failed to solve the Picard Iteration") /\
   fst (picard (H := measured [lit 41.69%float; lit 96.03%float] rounded_product)
          (single_check (lit 104.68914461394745%float)) fresh_start)
   = Val (ExitTol 0)) /\
  (fst (picard (H := measured [lit 140.14%float; lit 141.73%float] measured_pow2)
          (single_check (lit 199.31535941818433%float)) fresh_start)
   = Val (ExitTol 0) /\
   fst (picard (H := measured [lit 140.14%float; lit 141.73%float] rounded_product)
          (single_check (lit 199.31535941818433%float)) fresh_start)
   = Exn (SystemExit "Failed to solve the Picard Iteration")).
Proof. vm_compute. repeat split; reflexivity. Qed.

(** ** Entries without references *)

Lemma interpolate_some_plain (fuel : nat) (opts : gmap string string) (value : string) :
  Config.has_percent value = false ->
  Config.interpolate_some (S fuel) opts value = Val value.
Proof.
  intros Hplain. induction value as [| ch value IH]; [reflexivity|].
  simpl in Hplain. apply orb_false_iff in Hplain as [Hch Hrest].
  specialize (IH Hrest). simpl in IH |- *. rewrite Hch. cbn [negb].
  rewrite IH. reflexivity.
Qed.

(** X22: a [ConfigParser] reads an entry that holds no percent sign as it
    is written: the look-up gives its raw text. *)
Theorem text_plain (secs : gmap string (gmap string string)) (sec opt raw : string) :
  Config.get (Config.config_parser secs) sec opt = Some raw ->
  Config.has_percent raw = false ->
  Config.text (Config.config_parser secs) sec opt = Some (Val raw).
Proof.
  intros Hget Hplain. unfold Config.text. rewrite Hget. f_equal.
  simpl. unfold Config.basic_before_get.
  destruct (secs !! sec); apply interpolate_some_plain; exact Hplain.
Qed.

Lemma text_plain_witness :
  Config.text (fh_config configured_handler) "StateEquation" "picard_rtol"
  = Some (Val "0.25"%string).
Proof.
  apply (text_plain _ "StateEquation" "picard_rtol" "0.25").
  - vm_compute. reflexivity.
  - reflexivity.
Defined.

(** ** The solver options and handles *)

Lemma init_ksps_from (opts : gmap string OptionValue) (js : list nat)
    (acc : list Ksp) :
  fold_left (fun ksps (_ : nat) => ksps ++ [{| ksp_options := opts |}]) js acc
  = acc ++ repeat {| ksp_options := opts |} (length js).
Proof.
  revert acc. induction js as [| j js IH]; intros acc; simpl.
  - now rewrite app_nil_r.
  - rewrite IH, <- app_assoc. reflexivity.
Qed.

(** X19: whatever the table of options held before, after [__init__] it
    holds exactly the four options of lines 44-47; [self.ksps] has one
    handle for each subsystem, each configured by these four options, so
    that every index [-1 - i] that [solve] uses on it is in range and
    denotes the handle [state_dim - 1 - i]. *)
Theorem init_solver_handles (form_handler : FormHandler)
    (opts : gmap string OptionValue) :
  fst (init_solvers form_handler opts)
  = {[ "ksp_type" := OptText "preonly";
       "pc_type" := OptText "lu";
       "pc_factor_mat_solver_type" := OptText "mumps";
       "mat_mumps_icntl_24" := OptInt 1 ]} /\
  length (snd (init_solvers form_handler opts)) = fh_state_dim form_handler /\
  Forall (fun ksp => ksp_options ksp = fst (init_solvers form_handler opts))
         (snd (init_solvers form_handler opts)) /\
  (forall i, (i < fh_state_dim form_handler)%nat ->
     py_index (length (snd (init_solvers form_handler opts))) (-1 - Z.of_nat i)
     = Some (fh_state_dim form_handler - 1 - i)%nat).
Proof.
  assert (Hk : snd (init_solvers form_handler opts)
               = repeat {| ksp_options := init_options opts |}
                        (fh_state_dim form_handler)).
  { unfold init_solvers, init_ksps. simpl.
    rewrite init_ksps_from, length_seq. reflexivity. }
  assert (Hlen : length (snd (init_solvers form_handler opts))
                 = fh_state_dim form_handler)
    by (rewrite Hk; apply repeat_length).
  split; [| split; [exact Hlen | split]].
  - unfold init_solvers, init_options, opts_set, opts_clear. simpl fst.
    vm_compute. reflexivity.
  - rewrite Hk. apply Forall_forall. intros ksp Hin.
    apply list_elem_of_In, repeat_spec in Hin. now subst.
  - intros i Hi. rewrite Hlen. now apply py_index_from_end.
Qed.

Lemma init_solver_handles_witness :
  fst (init_solvers bare_handler stale_options) !! "ksp_type"
  = Some (OptText "preonly") /\
  fst (init_solvers bare_handler stale_options) !! "ksp_rtol" = None /\
  length (snd (init_solvers bare_handler stale_options)) = 2%nat /\
  py_index (length (snd (init_solvers bare_handler stale_options))) (-1 - 0)
  = Some 1%nat.
Proof.
  destruct (init_solver_handles bare_handler stale_options) as (Ho & Hl & _ & Hi).
  rewrite Ho. split; [reflexivity|]. split; [reflexivity|]. split; [exact Hl|].
  apply (Hi 0%nat). vm_compute. lia.
Defined.
